(** * Verification of the treemap layout engine (src/utils/layout.js)

    A shallow embedding of [calculateLayout] and of the functions it runs
    ([layoutSquarified], its row-growing loop, [worstRatio]), with the
    properties the specification states about them.

    Numbers.  A JavaScript number is modelled by [num]: the special values
    NaN, +Infinity and -Infinity together with the finite values, which are
    exact rationals.  Division by zero, Infinity - Infinity, comparisons with
    NaN and [Math.max] on NaN behave as in JavaScript, because control flow
    depends on them; rounding, overflow and the sign of zero are not
    modelled, so an equation proved here is the exact-arithmetic reading of
    an "equal within tolerance" of the code.  The code itself computes with
    IEEE-754 doubles: the module [Double] below embeds the layout over
    them, and what the code returns on given numbers is evaluated there.
    A statement about the exact model is meant of the code where it does
    not depend on the arithmetic (which objects are returned, in which
    order of the numbers computed, with which properties), or where it is
    stated within floating-point tolerance.

    Objects.  An item is a JavaScript object: a finite map from property
    names to values.  Object spread with extra properties is map insertion,
    so a property of the item that has the name of a computed property is
    overwritten, as in the code.  The argument [items] is an array of
    objects; [null] and [undefined] arrays, for which the code returns the
    empty array as well, are not in the model.

    State.  The functions nested in [calculateLayout] push into the shared
    array [layouts]; the model passes that array along.  The recursion of
    [layoutSquarified] is bounded by a fuel, and running out of fuel is the
    result [None]: that it never happens is part of what is proved. *)

From Stdlib Require Import QArith Qminmax Qround Qabs Lqa Lia Sorted Ascii.
From Corelib Require Import PrimFloat SpecFloat FloatOps.
From stdpp Require Import gmap strings list fin_maps pretty.

Local Open Scope Q_scope.

(** ** Numbers *)

Inductive num : Type :=
  | NaN : num
  | PInf : num
  | NInf : num
  | Fin (q : Q) : num.

Definition Qsgn_pos (q : Q) : bool := negb (Qle_bool q 0).
Definition Qsgn_neg (q : Q) : bool := negb (Qle_bool 0 q).

(** [a + b] *)
Definition jadd (a b : num) : num :=
  match a, b with
  | NaN, _ | _, NaN => NaN
  | PInf, NInf | NInf, PInf => NaN
  | PInf, _ | _, PInf => PInf
  | NInf, _ | _, NInf => NInf
  | Fin p, Fin q => Fin (p + q)
  end.

(** unary minus *)
Definition jneg (a : num) : num :=
  match a with
  | NaN => NaN
  | PInf => NInf
  | NInf => PInf
  | Fin q => Fin (- q)
  end.

(** [a - b] *)
Definition jsub (a b : num) : num := jadd a (jneg b).

(** The product of an infinity of sign [pos] with the finite [q]. *)
Definition inf_times (pos : bool) (q : Q) : num :=
  if Qeq_bool q 0 then NaN
  else if Bool.eqb pos (Qsgn_pos q) then PInf else NInf.

(** [a * b] *)
Definition jmul (a b : num) : num :=
  match a, b with
  | NaN, _ | _, NaN => NaN
  | PInf, PInf | NInf, NInf => PInf
  | PInf, NInf | NInf, PInf => NInf
  | PInf, Fin q | Fin q, PInf => inf_times true q
  | NInf, Fin q | Fin q, NInf => inf_times false q
  | Fin p, Fin q => Fin (p * q)
  end.

(** [a / b]; a zero divisor is the positive zero. *)
Definition jdiv (a b : num) : num :=
  match a, b with
  | NaN, _ | _, NaN => NaN
  | (PInf | NInf), (PInf | NInf) => NaN
  | PInf, Fin q => if Qsgn_neg q then NInf else PInf
  | NInf, Fin q => if Qsgn_neg q then PInf else NInf
  | Fin _, (PInf | NInf) => Fin 0
  | Fin p, Fin q =>
      if Qeq_bool q 0 then
        if Qeq_bool p 0 then NaN
        else if Qsgn_pos p then PInf else NInf
      else Fin (p / q)
  end.

(** [a <= b]; false as soon as one side is NaN. *)
Definition jle (a b : num) : bool :=
  match a, b with
  | NaN, _ | _, NaN => false
  | NInf, _ | _, PInf => true
  | _, NInf | PInf, _ => false
  | Fin p, Fin q => Qle_bool p q
  end.

(** [a >= b] *)
Definition jge (a b : num) : bool := jle b a.

(** [a < b] *)
Definition jlt (a b : num) : bool :=
  match a, b with
  | NaN, _ | _, NaN => false
  | PInf, _ | _, NInf => false
  | NInf, _ | _, PInf => true
  | Fin p, Fin q => negb (Qle_bool q p)
  end.

(** [a > b] *)
Definition jgt (a b : num) : bool := jlt b a.

(** [a === b] on numbers. *)
Definition jeq (a b : num) : bool :=
  match a, b with
  | PInf, PInf | NInf, NInf => true
  | Fin p, Fin q => Qeq_bool p q
  | _, _ => false
  end.

(** [Math.max(a, b)]: NaN as soon as one argument is NaN. *)
Definition jmax (a b : num) : num :=
  match a, b with
  | NaN, _ | _, NaN => NaN
  | _, _ => if jle a b then b else a
  end.

(** [Math.min(a, b)] *)
Definition jmin (a b : num) : num :=
  match a, b with
  | NaN, _ | _, NaN => NaN
  | _, _ => if jle a b then a else b
  end.

Declare Scope num_scope.
Delimit Scope num_scope with num.
Bind Scope num_scope with num.
Infix "+" := jadd : num_scope.
Infix "-" := jsub : num_scope.
Infix "*" := jmul : num_scope.
Infix "/" := jdiv : num_scope.

(** ** Objects *)

(** A property value: a number, or anything else a caller attaches (names,
    image links, colour hints), kept as a string. *)
Inductive value : Type :=
  | VNum (n : num) : value
  | VStr (s : string) : value.

(** Reading the property [k] of [o] as a number.  A missing property reads as
    [undefined], which arithmetic turns into NaN; the data model requires
    [size] to be a number, and the coercions JavaScript applies to other
    values are not modelled: they read as NaN too. *)
Definition get_num (k : string) (o : gmap string value) : num :=
  match o !! k with
  | Some (VNum n) => n
  | _ => NaN
  end.

Definition size (item : gmap string value) : num := get_num "size" item.
Definition normalizedSize (item : gmap string value) : num :=
  get_num "normalizedSize" item.

(** The object literal [{...item, x, y, width, height}]. *)
Definition placed (item : gmap string value) (x y width height : num)
  : gmap string value :=
  <["height" := VNum height]>
    (<["width" := VNum width]> (<["y" := VNum y]> (<["x" := VNum x]> item))).

(** ** The layout *)

(** The comparator of the sort: [(a, b) => b.normalizedSize - a.normalizedSize]. *)
Definition compareItems (a b : gmap string value) : num :=
  (normalizedSize b - normalizedSize a)%num.

(** [Array.prototype.sort] is stable; it is modelled by the stable insertion
    sort.  An element moves behind the next one only when the comparator is
    positive (a NaN comparator counts as zero).  With finite normalized
    sizes the comparator is consistent and every stable sort gives this
    order; otherwise JavaScript leaves the order to the implementation, and
    only that the result is a permutation is used. *)
Fixpoint insertItem (a : gmap string value) (l : list (gmap string value))
  : list (gmap string value) :=
  match l with
  | [] => [a]
  | b :: l' =>
      if jgt (compareItems a b) (Fin 0) then b :: insertItem a l' else a :: l
  end.

Definition sortItems (l : list (gmap string value)) : list (gmap string value) :=
  foldr insertItem [] l.

(** [worstRatio(row, area, side)] *)
Definition worstRatio (row : list (gmap string value)) (area side : num) : num :=
  if (length row =? 0)%nat then PInf
  else
    let length_ := (area / side)%num in
    fold_left
      (fun worst item =>
         let itemSide := (normalizedSize item / length_)%num in
         let ratio := jmax (length_ / itemSide)%num (itemSide / length_)%num in
         jmax worst ratio)
      row (Fin 0).

(** The [while (i < items.length)] loop of [layoutSquarified]: [rest] is
    [items] from index [i] on; the result is the final [row] and [rowArea]. *)
Fixpoint growRow (side : num) (rest row : list (gmap string value))
    (rowArea : num) : list (gmap string value) * num :=
  match rest with
  | [] => (row, rowArea)
  | item :: rest' =>
      let testRow := row ++ [item] in
      let testArea := (rowArea + normalizedSize item)%num in
      if (length row =? 0)%nat then growRow side rest' (row ++ [item]) testArea
      else
        let currentWorst := worstRatio row rowArea side in
        let testWorst := worstRatio testRow testArea side in
        if jle testWorst currentWorst
        then growRow side rest' (row ++ [item]) testArea
        else (row, rowArea)
  end.

(** The body of [row.forEach]: the state is [offset] and the shared array
    [layouts]. *)
Definition placeRowItem (padding x y rowLength : num) (vertical : bool)
    (st : num * list (gmap string value)) (item : gmap string value)
  : num * list (gmap string value) :=
  let itemSize := (normalizedSize item / rowLength)%num in
  let rect :=
    if vertical then
      placed item
        (x + padding / Fin 2)%num
        (y + st.1 + padding / Fin 2)%num
        (jmax (rowLength - padding)%num (Fin 0))
        (jmax (itemSize - padding)%num (Fin 0))
    else
      placed item
        (x + st.1 + padding / Fin 2)%num
        (y + padding / Fin 2)%num
        (jmax (itemSize - padding)%num (Fin 0))
        (jmax (rowLength - padding)%num (Fin 0))
  in
  ((st.1 + itemSize)%num, st.2 ++ [rect]).

(** [layoutSquarified(items, x, y, width, height)], pushing into [layouts].
    [fuel] bounds the depth of the recursion; [None] is fuel exhausted. *)
Fixpoint layoutSquarified (fuel : nat) (padding : num)
    (items : list (gmap string value)) (x y width height : num)
    (layouts : list (gmap string value)) : option (list (gmap string value)) :=
  match fuel with
  | O => None
  | S fuel' =>
      match items with
      | [] => Some layouts
      | [item] =>
          Some (layouts ++
                  [placed item
                     (x + padding / Fin 2)%num
                     (y + padding / Fin 2)%num
                     (jmax (width - padding)%num (Fin 0))
                     (jmax (height - padding)%num (Fin 0))])
      | _ =>
          let vertical := jge width height in
          let side := if vertical then height else width in
          let '(row, rowArea) := growRow side items [] (Fin 0) in
          let rowLength := (rowArea / side)%num in
          let st :=
            fold_left (placeRowItem padding x y rowLength vertical) row
              (Fin 0, layouts) in
          let remaining := drop (length row) items in
          if (0 <? length remaining)%nat then
            if vertical then
              layoutSquarified fuel' padding remaining
                (x + rowLength)%num y (width - rowLength)%num height st.2
            else
              layoutSquarified fuel' padding remaining
                x (y + rowLength)%num width (height - rowLength)%num st.2
          else Some st.2
      end
  end.

(** The [.map(...)] step: [{...item, normalizedSize: ...}]. *)
Definition normalize (totalSize totalArea : num) (item : gmap string value)
  : gmap string value :=
  <["normalizedSize" := VNum ((size item / totalSize) * totalArea)%num]> item.

(** [items.reduce((sum, item) => sum + item.size, 0)] *)
Definition totalSize (items : list (gmap string value)) : num :=
  fold_left (fun sum item => (sum + size item)%num) items (Fin 0).

(** The array [normalizedItems]: the items with their normalized sizes,
    sorted by descending normalized size. *)
Definition normalizedItems (items : list (gmap string value))
    (containerWidth containerHeight : num) : list (gmap string value) :=
  let totalArea := (containerWidth * containerHeight)%num in
  sortItems (map (normalize (totalSize items) totalArea) items).

(** [calculateLayout(items, containerWidth, containerHeight, padding)].
    The functions [squarify], [worst] and [layoutRow] of the source are never
    called.  [layoutSquarified] runs twice: the array is emptied between the
    two runs ([layouts.length = 0]) and the second result is returned.  The
    fuel is the number of items; [None] would be a recursion deeper than
    that. *)
Definition calculateLayout (items : list (gmap string value))
    (containerWidth containerHeight padding : num)
  : option (list (gmap string value)) :=
  if (length items =? 0)%nat then Some []
  else if jeq (totalSize items) (Fin 0) then Some []
  else
    let normalizedItems := normalizedItems items containerWidth containerHeight in
    let fuel := length normalizedItems in
    match layoutSquarified fuel padding normalizedItems (Fin 0) (Fin 0)
            containerWidth containerHeight [] with
    | None => None
    | Some _ =>
        layoutSquarified fuel padding normalizedItems (Fin 0) (Fin 0)
          containerWidth containerHeight []
    end.

(** The default of the last parameter, [padding = 3]. *)
Definition calculateLayout_default (items : list (gmap string value))
    (containerWidth containerHeight : num) :=
  calculateLayout items containerWidth containerHeight (Fin 3).

(** ** Reading a layout *)

Definition rect_x (r : gmap string value) : num := get_num "x" r.
Definition rect_y (r : gmap string value) : num := get_num "y" r.
Definition rect_width (r : gmap string value) : num := get_num "width" r.
Definition rect_height (r : gmap string value) : num := get_num "height" r.

(** ** The geometry of a run

    The rectangle each item is allotted before the padding is subtracted.
    [layoutCells] follows the recursion of [layoutSquarified] and keeps the
    numbers the code computes just before each [layouts.push];
    [layoutSquarified_cells] below relates the two. *)

Record cell : Type := Cell { cx : num; cy : num; cw : num; ch : num }.

(** The object pushed for an item allotted the cell [c]. *)
Definition emit (padding : num) (item : gmap string value) (c : cell)
  : gmap string value :=
  placed item
    (cx c + padding / Fin 2)%num
    (cy c + padding / Fin 2)%num
    (jmax (cw c - padding)%num (Fin 0))
    (jmax (ch c - padding)%num (Fin 0)).

Definition rowCell (x y rowLength : num) (vertical : bool) (offset : num)
    (item : gmap string value) : cell :=
  let itemSize := (normalizedSize item / rowLength)%num in
  if vertical then Cell x (y + offset)%num rowLength itemSize
  else Cell (x + offset)%num y itemSize rowLength.

Fixpoint rowCells (x y rowLength : num) (vertical : bool) (offset : num)
    (row : list (gmap string value)) : list cell :=
  match row with
  | [] => []
  | item :: row' =>
      rowCell x y rowLength vertical offset item
        :: rowCells x y rowLength vertical
             (offset + normalizedSize item / rowLength)%num row'
  end.

Fixpoint layoutCells (fuel : nat) (items : list (gmap string value))
    (x y width height : num) : list cell :=
  match fuel with
  | O => []
  | S fuel' =>
      match items with
      | [] => []
      | [item] => [Cell x y width height]
      | _ =>
          let vertical := jge width height in
          let side := if vertical then height else width in
          let '(row, rowArea) := growRow side items [] (Fin 0) in
          let rowLength := (rowArea / side)%num in
          let remaining := drop (length row) items in
          rowCells x y rowLength vertical (Fin 0) row ++
            (if vertical then
               layoutCells fuel' remaining (x + rowLength)%num y
                 (width - rowLength)%num height
             else
               layoutCells fuel' remaining x (y + rowLength)%num width
                 (height - rowLength)%num)
      end
  end.

(** ** Items with positive areas *)

(** The normalized size of an item, as a rational. *)
Definition nsQ (item : gmap string value) : Q :=
  match normalizedSize item with
  | Fin a => a
  | _ => 0
  end.

Definition pos_ns (item : gmap string value) : Prop :=
  exists a : Q, normalizedSize item = Fin a /\ 0 < a.

Definition sumNS (l : list (gmap string value)) : Q :=
  foldr (fun item acc => nsQ item + acc) 0 l.

(** ** Cells with rational coordinates *)

Record qcell : Type := QCell { qx : Q; qy : Q; qw : Q; qh : Q }.

Definition cell_of (c : qcell) : cell :=
  Cell (Fin (qx c)) (Fin (qy c)) (Fin (qw c)) (Fin (qh c)).

(** The cell has area [a] and positive sides. *)
Definition good (a : Q) (c : qcell) : Prop :=
  qw c * qh c == a /\ 0 < qw c /\ 0 < qh c.

(** The cell lies in the rectangle at [(x, y)] of size [w] by [h]. *)
Definition inside (x y w h : Q) (c : qcell) : Prop :=
  x <= qx c /\ qx c + qw c <= x + w /\ y <= qy c /\ qy c + qh c <= y + h.

(** The two cells share no interior point. *)
Definition apart (c d : qcell) : Prop :=
  qx c + qw c <= qx d \/ qx d + qw d <= qx c \/
  qy c + qh c <= qy d \/ qy d + qh d <= qy c.

Fixpoint pairwise_apart (l : list qcell) : Prop :=
  match l with
  | [] => True
  | c :: l' => Forall (apart c) l' /\ pairwise_apart l'
  end.

(** The cells of one row. *)
Fixpoint qrow (x y rl : Q) (vertical : bool) (offset : Q) (areas : list Q)
  : list qcell :=
  match areas with
  | [] => []
  | a :: areas' =>
      (if vertical then QCell x (y + offset) rl (a / rl)
       else QCell (x + offset) y (a / rl) rl)
        :: qrow x y rl vertical (offset + a / rl) areas'
  end.

Definition sumQ (l : list Q) : Q := foldr Qplus 0 l.

(** The box a row fills: its cells are stacked from [offset] on along the
    side of the rectangle, and are [rl] wide across. *)
Definition row_box (x y rl : Q) (vertical : bool) (offset span : Q)
  : qcell -> Prop :=
  if vertical then inside x (y + offset) rl span
  else inside (x + offset) y span rl.

(** ** Vocabulary of the statements *)

(** The same number: equal rationals, the same infinity, or both NaN. *)
Definition same (a b : num) : Prop :=
  match a, b with
  | NaN, NaN | PInf, PInf | NInf, NInf => True
  | Fin p, Fin q => p == q
  | _, _ => False
  end.

(** An item whose [size] is a positive number. *)
Definition pos_size (item : gmap string value) : Prop :=
  exists s : Q, size item = Fin s /\ 0 < s.

(** The size of an item, as a rational. *)
Definition sizeQ (item : gmap string value) : Q :=
  match size item with
  | Fin s => s
  | _ => 0
  end.

Definition sumSize (l : list (gmap string value)) : Q :=
  foldr (fun item acc => sizeQ item + acc) 0 l.

(** What the normalized items of a positive input look like: each keeps its
    positive size and has the positive area [size / total * area]. *)
Definition normal (T A : Q) (item : gmap string value) : Prop :=
  pos_size item /\ normalizedSize item = Fin (sizeQ item / T * A) /\
  0 < sizeQ item / T * A.

(** [Math.max(a, 0)] on a rational. *)
Definition clampQ (a : Q) : Q := if Qle_bool a 0 then 0 else a.



(** The two rectangles intersect in a rectangle of positive width and
    height. *)
Definition overlaps (r1 r2 : gmap string value) : bool :=
  jlt (jmax (rect_x r1) (rect_x r2))
      (jmin (rect_x r1 + rect_width r1)%num (rect_x r2 + rect_width r2)%num)
  && jlt (jmax (rect_y r1) (rect_y r2))
         (jmin (rect_y r1 + rect_height r1)%num (rect_y r2 + rect_height r2)%num).




(** A side that is not negative: at least zero, or NaN. *)
Definition not_negative (n : num) : Prop := n = NaN \/ jge n (Fin 0) = true.

(** The properties [layoutSquarified] computes for a pushed object. *)
Definition computed : list string := ["x"; "y"; "width"; "height"].

(** The properties [calculateLayout] writes into the objects it returns. *)
Definition written : list string :=
  ["normalizedSize"; "x"; "y"; "width"; "height"].

(** The rectangle [r] carries every property of [item] that the layout does
    not write, and has numbers for the four coordinates. *)
Definition carries (item r : gmap string value) : Prop :=
  (forall k, k ∉ written -> r !! k = item !! k) /\
  (exists x y w h : num,
     r !! "x" = Some (VNum x) /\ r !! "y" = Some (VNum y) /\
     r !! "width" = Some (VNum w) /\ r !! "height" = Some (VNum h)).

(** The rectangle [r] has every property of [item], unmodified. *)
Definition carries_all (item r : gmap string value) : Prop :=
  forall k v, item !! k = Some v -> r !! k = Some v.

(** The list is in non-increasing order of [size]. *)
Definition size_descending (out : list (gmap string value)) : Prop :=
  forall (i j : nat) ri rj,
    (i < j)%nat -> out !! i = Some ri -> out !! j = Some rj ->
    jge (size ri) (size rj) = true.

(** [same], as a test. *)
Definition sameb (a b : num) : bool :=
  match a, b with
  | NaN, NaN | PInf, PInf | NInf, NInf => true
  | Fin p, Fin q => Qeq_bool p q
  | _, _ => false
  end.

(** A rectangle with rational coordinates, to state expected outputs. *)
Record box : Type := Box { bx : Q; by_ : Q; bw : Q; bh : Q }.

(** The rectangle [r] is at [b]. *)
Definition rect_at (r : gmap string value) (b : box) : Prop :=
  same (rect_x r) (Fin (bx b)) /\ same (rect_y r) (Fin (by_ b)) /\
  same (rect_width r) (Fin (bw b)) /\ same (rect_height r) (Fin (bh b)).

Definition rect_atb (r : gmap string value) (b : box) : bool :=
  sameb (rect_x r) (Fin (bx b)) && sameb (rect_y r) (Fin (by_ b)) &&
  sameb (rect_width r) (Fin (bw b)) && sameb (rect_height r) (Fin (bh b)).

(** The rectangles of [out] are, in order, at the boxes [bs]. *)
Fixpoint rects_atb (out : list (gmap string value)) (bs : list box) : bool :=
  match out, bs with
  | [], [] => true
  | r :: out', b :: bs' => rect_atb r b && rects_atb out' bs'
  | _, _ => false
  end.

(** Both sides of every rectangle are at least 0. *)
Definition sides_ge0 (r : gmap string value) : Prop :=
  jge (rect_width r) (Fin 0) = true /\ jge (rect_height r) (Fin 0) = true.

Definition sides_ge0b (r : gmap string value) : bool :=
  jge (rect_width r) (Fin 0) && jge (rect_height r) (Fin 0).



(** The property [k] of [r] is a number. *)
Definition has_num (k : string) (r : gmap string value) : bool :=
  match r !! k with
  | Some (VNum _) => true
  | _ => false
  end.

(** The first two elements are in increasing order of [size]. *)
Definition starts_ascending (out : list (gmap string value)) : bool :=
  match out with
  | r0 :: r1 :: _ => negb (jge (size r0) (size r1))
  | _ => false
  end.

(** Items of the examples. *)
Definition mkItem (id : string) (sz : Q) : gmap string value :=
  <["size" := VNum (Fin sz)]> {[ "id" := VStr id ]}.

Definition sizeOnly (sz : Q) : gmap string value := {[ "size" := VNum (Fin sz) ]}.

(** The item [{id: 'a', size: 5, width: '80px'}]. *)
Definition itemWithWidth : gmap string value :=
  <["width" := VStr "80px"]> (mkItem "a" 5).

(** ** Further vocabulary for the layout *)

(** The normalized size the code computes for [item],
    [item.size / totalSize * (containerWidth * containerHeight)], is a
    finite number. *)
Definition finite_share (items : list (gmap string value)) (W H : num)
    (item : gmap string value) : Prop :=
  exists q : Q, (size item / totalSize items * (W * H))%num = Fin q.

(** The normalized size of the item is a finite number. *)
Definition finite_ns (item : gmap string value) : Prop :=
  exists q : Q, normalizedSize item = Fin q.

(** [a] may stand before [b]: its normalized size is at least that of [b],
    as [>=] compares them. *)
Definition ns_jge (a b : gmap string value) : Prop :=
  jge (normalizedSize a) (normalizedSize b) = true.


(** [rowArea] after the loop has pushed the items of [row]: the sizes added
    one by one to 0. *)
Definition areaOf (row : list (gmap string value)) : num :=
  fold_left (fun acc item => (acc + normalizedSize item)%num) row (Fin 0).

(** * User preferences and suggestion filtering

    The second half of the source file: preferences kept in [localStorage]
    and the filter [matchesFilters].

    Strings.  A JavaScript string is modelled by a Rocq string; lower-casing
    is the ASCII one (letters A to Z), which is what JavaScript does on
    ASCII text.

    Storage.  [localStorage] holds one text under the preferences key.  The
    text is modelled by what [JSON.parse] makes of it: nothing stored (or
    the empty text, which the code treats alike), a text that does not
    parse, or a JSON object, read at the types of the preferences, in which
    every key may be missing.  [JSON.stringify] followed by [JSON.parse]
    gives back the data of a preferences object (strings, booleans, finite
    numbers, arrays and plain objects), so saving stores the object with
    every key present.  Keys other than [filters], [platforms] and
    [suggestions] are not modelled.

    Sharing.  [DEFAULT_PREFERENCES] is a module-level object and
    [getPreferences] returns it, not a copy, when nothing usable is stored;
    when it merges stored preferences into fresh objects, a list of filters
    missing from the stored text is still the list of the defaults itself.
    The model keeps the current content of the defaults in the state and
    tells, for what [getPreferences] returns, which parts are the defaults'
    own, so that a [push] or an assignment on them changes the defaults as
    it does in the code. *)

Module Preferences.

Record filters_t : Type := Filters {
  categories : list string;
  keywords : list string;
  excludeKeywords : list string
}.

Record suggestions_t : Type := Suggestions {
  autoRefresh : bool;
  refreshInterval : Q
}.

Record prefs : Type := Prefs {
  filters : filters_t;
  platforms : gmap string bool;
  suggestions : suggestions_t
}.

(** [DEFAULT_PREFERENCES] as the module is loaded. *)
Definition DEFAULT_PREFERENCES : prefs :=
  Prefs (Filters [] [] [])
    (<["spotify" := true]> (<["googleTrends" := true]>
       (<["tiktok" := false]> (<["instagram" := false]> ∅))))
    (Suggestions false 60).

(** A parsed JSON text, read at the types of the preferences. *)
Record jfilters : Type := JFilters {
  j_categories : option (list string);
  j_keywords : option (list string);
  j_excludeKeywords : option (list string)
}.

Record jsuggestions : Type := JSuggestions {
  j_autoRefresh : option bool;
  j_refreshInterval : option Q
}.

Record jprefs : Type := JPrefs {
  j_filters : option jfilters;
  j_platforms : option (gmap string bool);
  j_suggestions : option jsuggestions
}.

Inductive stored : Type :=
  | Unparsable : stored
  | Json (j : jprefs) : stored.

(** The state: the item of [localStorage] and the current content of the
    object [DEFAULT_PREFERENCES]. *)
Record world : Type := World {
  storage : option stored;
  defaults : prefs
}.

(** Where the object that [getPreferences] returned comes from: it is
    [DEFAULT_PREFERENCES] itself, or a fresh object whose lists [keywords]
    and [excludeKeywords] may still be those of the defaults. *)
Inductive origin : Type :=
  | TheDefaults : origin
  | Merged (keywordsShared excludeShared : bool) : origin.

(** [JSON.parse(JSON.stringify(p))] *)
Definition to_json (p : prefs) : jprefs :=
  JPrefs
    (Some (JFilters (Some (categories (filters p)))
             (Some (keywords (filters p)))
             (Some (excludeKeywords (filters p)))))
    (Some (platforms p))
    (Some (JSuggestions (Some (autoRefresh (suggestions p)))
             (Some (refreshInterval (suggestions p))))).

(** [{...DEFAULT_PREFERENCES.filters, ...parsed.filters}] *)
Definition mergeFilters (d : filters_t) (j : option jfilters) : filters_t :=
  Filters
    (default (categories d) (j ≫= j_categories))
    (default (keywords d) (j ≫= j_keywords))
    (default (excludeKeywords d) (j ≫= j_excludeKeywords)).

(** [{...DEFAULT_PREFERENCES.platforms, ...parsed.platforms}]: the stored
    entries, and the entries of the defaults for the other keys. *)
Definition mergePlatforms (d : gmap string bool) (j : option (gmap string bool))
  : gmap string bool :=
  default ∅ j ∪ d.

Definition mergeSuggestions (d : suggestions_t) (j : option jsuggestions)
  : suggestions_t :=
  Suggestions
    (default (autoRefresh d) (j ≫= j_autoRefresh))
    (default (refreshInterval d) (j ≫= j_refreshInterval)).

(** [getPreferences()] *)
Definition getPreferences (w : world) : origin * prefs :=
  match storage w with
  | Some (Json parsed) =>
      (Merged (bool_decide (j_filters parsed ≫= j_keywords = None))
              (bool_decide (j_filters parsed ≫= j_excludeKeywords = None)),
       Prefs (mergeFilters (filters (defaults w)) (j_filters parsed))
             (mergePlatforms (platforms (defaults w)) (j_platforms parsed))
             (mergeSuggestions (suggestions (defaults w)) (j_suggestions parsed)))
  | _ => (TheDefaults, defaults w)
  end.

(** [savePreferences(preferences)] *)
Definition savePreferences (p : prefs) (w : world) : world :=
  World (Some (Json (to_json p))) (defaults w).

(** ASCII lower case. *)
Definition lower_char (c : ascii) : ascii :=
  let n := nat_of_ascii c in
  if (65 <=? n)%nat && (n <=? 90)%nat then ascii_of_nat (n + 32) else c.

(** [s.toLowerCase()] *)
Fixpoint toLowerCase (s : string) : string :=
  match s with
  | EmptyString => EmptyString
  | String c s' => String (lower_char c) (toLowerCase s')
  end.

(** [list.includes(s)] on an array of strings. *)
Definition inList (s : string) (l : list string) : bool :=
  existsb (String.eqb s) l.

Definition set_keywords (ks : list string) (f : filters_t) : filters_t :=
  Filters (categories f) ks (excludeKeywords f).
Definition set_excludeKeywords (ks : list string) (f : filters_t) : filters_t :=
  Filters (categories f) (keywords f) ks.
Definition set_filters (f : filters_t) (p : prefs) : prefs :=
  Prefs f (platforms p) (suggestions p).
Definition set_platforms (m : gmap string bool) (p : prefs) : prefs :=
  Prefs (filters p) m (suggestions p).
Definition set_defaults (d : prefs) (w : world) : world :=
  World (storage w) d.

(** The list [keywords] of the returned object is the one of the defaults. *)
Definition keywordsShared (o : origin) : bool :=
  match o with
  | TheDefaults => true
  | Merged k _ => k
  end.

Definition excludeShared (o : origin) : bool :=
  match o with
  | TheDefaults => true
  | Merged _ e => e
  end.

(** The returned object is [DEFAULT_PREFERENCES], so that an assignment to
    one of its parts changes the defaults. *)
Definition isDefaults (o : origin) : bool :=
  match o with
  | TheDefaults => true
  | Merged _ _ => false
  end.

(** [addKeyword(keyword)]: the new state and the returned preferences. *)
Definition addKeyword (keyword : string) (w : world) : world * prefs :=
  let '(o, prefs) := getPreferences w in
  if negb (inList (toLowerCase keyword) (keywords (filters prefs))) then
    (* prefs.filters.keywords.push(keyword.toLowerCase()) *)
    let pushed := keywords (filters prefs) ++ [toLowerCase keyword] in
    let prefs' := set_filters (set_keywords pushed (filters prefs)) prefs in
    let w' :=
      if keywordsShared o
      then set_defaults
             (set_filters (set_keywords pushed (filters (defaults w)))
                (defaults w)) w
      else w in
    (savePreferences prefs' w', prefs')
  else (w, prefs).

(** [removeKeyword(keyword)] *)
Definition removeKeyword (keyword : string) (w : world) : world * prefs :=
  let '(o, prefs) := getPreferences w in
  let kept :=
    List.filter (fun k => negb (String.eqb k (toLowerCase keyword)))
      (keywords (filters prefs)) in
  let prefs' := set_filters (set_keywords kept (filters prefs)) prefs in
  let w' := if isDefaults o then set_defaults prefs' w else w in
  (savePreferences prefs' w', prefs').

(** [addExcludeKeyword(keyword)] *)
Definition addExcludeKeyword (keyword : string) (w : world) : world * prefs :=
  let '(o, prefs) := getPreferences w in
  if negb (inList (toLowerCase keyword) (excludeKeywords (filters prefs))) then
    let pushed := excludeKeywords (filters prefs) ++ [toLowerCase keyword] in
    let prefs' := set_filters (set_excludeKeywords pushed (filters prefs)) prefs in
    let w' :=
      if excludeShared o
      then set_defaults
             (set_filters (set_excludeKeywords pushed (filters (defaults w)))
                (defaults w)) w
      else w in
    (savePreferences prefs' w', prefs')
  else (w, prefs).



(** [resetPreferences()] *)
Definition resetPreferences (w : world) : world * prefs :=
  (savePreferences (defaults w) w, defaults w).

(** [updatePreferences(updates)]: [updates] is an object in which every key
    may be missing. *)
Definition updatePreferences (updates : jprefs) (w : world) : world * prefs :=
  let current := (getPreferences w).2 in
  let updated :=
    Prefs (mergeFilters (filters current) (j_filters updates))
          (mergePlatforms (platforms current) (j_platforms updates))
          (mergeSuggestions (suggestions current) (j_suggestions updates)) in
  (savePreferences updated w, updated).

Section WithPrototype.

(** The names of the properties every object inherits from
    [Object.prototype] ([constructor], [toString], [__proto__], ...): for
    them too [name in object] is true. *)
Variable protoKeys : gset string.

(** [platform in prefs.platforms] *)
Definition hasProperty (platform : string) (m : gmap string bool) : bool :=
  bool_decide (platform ∈ dom m) || bool_decide (platform ∈ protoKeys).

(** [object[platform] = enabled] for a boolean [enabled]: the property is
    set, except that [__proto__], when the object has no property of its
    own of that name, is the accessor of [Object.prototype], which
    ignores a boolean. *)
Definition assignProperty (platform : string) (enabled : bool)
    (m : gmap string bool) : gmap string bool :=
  if bool_decide (platform ∈ dom m) || negb (String.eqb platform "__proto__")
  then <[platform := enabled]> m
  else m.

(** [togglePlatform(platform, enabled)] *)
Definition togglePlatform (platform : string) (enabled : bool) (w : world)
  : world * prefs :=
  let '(o, prefs) := getPreferences w in
  if hasProperty platform (platforms prefs) then
    let prefs' :=
      set_platforms (assignProperty platform enabled (platforms prefs)) prefs in
    let w' := if isDefaults o then set_defaults prefs' w else w in
    (savePreferences prefs' w', prefs')
  else (w, prefs).

End WithPrototype.

(** A suggestion; a property that is missing is [None]. *)
Record suggestion : Type := Suggestion {
  title : option string;
  description : option string;
  artist : option string;
  category : option string
}.

(** [s || ''] *)
Definition orEmpty (s : option string) : string := default EmptyString s.

(** The string [k] starts the string [s]. *)
Fixpoint startsWith (k s : string) : bool :=
  match k, s with
  | EmptyString, _ => true
  | String _ _, EmptyString => false
  | String a k', String b s' => Ascii.eqb a b && startsWith k' s'
  end.

(** [s.includes(k)]: [k] occurs in [s]. *)
Fixpoint includes (k s : string) : bool :=
  startsWith k s
  || match s with
     | EmptyString => false
     | String _ s' => includes k s'
     end.

(** The text the keywords are searched in. *)
Definition searchText (s : suggestion) : string :=
  toLowerCase
    (orEmpty (title s) +:+ " " +:+ orEmpty (description s) +:+ " "
       +:+ orEmpty (artist s)).

(** The loop over [filters.excludeKeywords]: [true] is the early
    [return false]. *)
Fixpoint excludedBy (text : string) (ks : list string) : bool :=
  match ks with
  | [] => false
  | keyword :: ks' => if includes keyword text then true else excludedBy text ks'
  end.

(** A category that is present and not the empty string. *)
Definition truthy (s : option string) : bool :=
  match s with
  | Some (String _ _) => true
  | _ => false
  end.

(** [matchesFilters(suggestion, preferences)] for given preferences, of
    which only the filters are read. *)
Definition matchesFilters (s : suggestion) (f : filters_t) : bool :=
  if (0 <? length (categories f))%nat && truthy (category s)
     && negb (inList (orEmpty (category s)) (categories f))
  then false
  else
    if excludedBy (searchText s) (excludeKeywords f) then false
    else
      if (0 <? length (keywords f))%nat then
        if negb (existsb (fun keyword => includes keyword (searchText s))
                   (keywords f))
        then false else true
      else true.

(** [matchesFilters(suggestion)]: without preferences, the stored ones. *)
Definition matchesStored (s : suggestion) (w : world) : bool :=
  matchesFilters s (filters (getPreferences w).2).



(** The string contains an ASCII capital letter. *)
Fixpoint hasUpper (s : string) : bool :=
  match s with
  | EmptyString => false
  | String c s' =>
      ((65 <=? nat_of_ascii c)%nat && (nat_of_ascii c <=? 90)%nat) || hasUpper s'
  end.

(** [k] occurs in [s]. *)
Definition occursIn (k s : string) : Prop :=
  exists pre post, s = pre +:+ k +:+ post.

(** The suggestion passes the category filter: there is none, or the
    suggestion has no category (or the empty one), or its category is
    listed. *)
Definition categoryPasses (s : suggestion) (f : filters_t) : Prop :=
  categories f = [] \/ category s = None \/ category s = Some EmptyString \/
  exists c, category s = Some c /\ c ∈ categories f.



(** The state when the module is loaded and nothing is stored. *)
Definition freshWorld : world := World None DEFAULT_PREFERENCES.

End Preferences.

(** * The colour of a block (src/utils/colors.js) *)

Module Colors.

(** [Math.abs(a)] *)
Definition jabs (a : num) : num :=
  match a with
  | NaN => NaN
  | PInf | NInf => PInf
  | Fin q => Fin (Qabs q)
  end.

(** What [Math.round] returns: NaN, an infinity or an integer. *)
Inductive rounded : Type :=
  | RNaN : rounded
  | RInf (positive : bool) : rounded
  | RInt (z : Z) : rounded.

(** [Math.round(a)]: the nearest integer, the upper one of two. *)
Definition jround (a : num) : rounded :=
  match a with
  | NaN => RNaN
  | PInf => RInf true
  | NInf => RInf false
  | Fin q => RInt (Qfloor (q + (1 # 2)))
  end.

(** A rounded number inside a template literal: an integer is written in
    decimal digits (the integers here are far below the 10^21 from which
    JavaScript uses the exponent notation). *)
Definition show (r : rounded) : string :=
  match r with
  | RNaN => "NaN"
  | RInf true => "Infinity"
  | RInf false => "-Infinity"
  | RInt z => pretty z
  end.

(** The constants [r], [g] and [b] of [getColor(change)]. *)
Definition channels (change : num) : rounded * rounded * rounded :=
  let intensity := jmin (jabs change / Fin 200)%num (Fin 1) in
  if jgt change (Fin 0) then
    (jround (Fin 0 + Fin 30 * intensity)%num,
     jround (Fin 200 + Fin 55 * intensity)%num,
     jround (Fin 80 + Fin 20 * intensity)%num)
  else
    (jround (Fin 220 + Fin 35 * intensity)%num,
     jround (Fin 0 + Fin 40 * intensity)%num,
     jround (Fin 220 + Fin 35 * intensity)%num).

(** [getColor(change)] *)
Definition getColor (change : num) : string :=
  let '(r, g, b) := channels change in
  "rgb(" +:+ show r +:+ ", " +:+ show g +:+ ", " +:+ show b +:+ ")".

(** The text of a colour with the given channels. *)
Definition rgb (r g b : Z) : string :=
  "rgb(" +:+ pretty r +:+ ", " +:+ pretty g +:+ ", " +:+ pretty b +:+ ")".

End Colors.

(** * The sections of the heatmap (src/components/Heatmap.jsx)

    The component [Heatmap] groups the trends by category, gives each
    category that is shown a band of the content area, and calls
    [calculateLayout] for each band.  What is modelled is the computation
    before the markup, and the call of [calculateLayout].

    A trend is an object, as an item of the layout is; its [category] is a
    string or is missing (another value reads as missing).  A category is
    an object with the properties [id] (a string), [enabled] (missing, or a
    boolean) and [order] (a number).

    [grouped] is a plain object used as a map, so reading [grouped[name]]
    for a name inherited from [Object.prototype] gives the inherited
    function or object.  The model is told these names, and for each
    whether the [length] of the inherited value is a positive number;
    calling [push] or [reduce] on such a value is a [TypeError], which is
    the result [None]. *)

Module Heatmap.

Record category_t : Type := Category {
  id : string;
  enabled : option bool;
  order : num
}.

Record section_t : Type := Section_ {
  category : category_t;
  items : list (gmap string value);
  y : num;
  height : num
}.

(** Reading a property that is a string. *)
Definition get_str (k : string) (o : gmap string value) : option string :=
  match o !! k with
  | Some (VStr s) => Some s
  | _ => None
  end.

(** [item.category]; [None] is [undefined]. *)
Definition categoryOf (item : gmap string value) : option string :=
  get_str "category" item.

(** The property name that [grouped[item.category]] reads. *)
Definition keyOf (c : option string) : string := default "undefined" c.

(** [cat.enabled !== false] *)
Definition notDisabled (cat : category_t) : bool :=
  negb (bool_decide (enabled cat = Some false)).

(** The comparator of the sort: [(a, b) => a.order - b.order]. *)
Definition compareOrder (a b : category_t) : num := (order a - order b)%num.

(** The stable sort, as for the items of the layout. *)
Fixpoint insertCategory (a : category_t) (l : list category_t)
  : list category_t :=
  match l with
  | [] => [a]
  | b :: l' =>
      if jgt (compareOrder a b) (Fin 0) then b :: insertCategory a l'
      else a :: l
  end.

Definition sortCategories (l : list category_t) : list category_t :=
  foldr insertCategory [] l.

(** [categories.find((c) => c.id === t.category)] *)
Definition findCategory (categories : list category_t) (c : option string)
  : option category_t :=
  List.find (fun cat => bool_decide (Some (id cat) = c)) categories.

(** The test of [enabledTrends]. *)
Definition isEnabled (categories : list category_t) (t : gmap string value)
  : bool :=
  match findCategory categories (categoryOf t) with
  | Some cat => notDisabled cat
  | None => false
  end.

Section WithPrototype.

(** The names inherited from [Object.prototype], each with whether the
    [length] of the inherited value is a positive number ([constructor]:
    yes; [toString], [__proto__]: no). *)
Variable inherited : gmap string bool.

(** [dimensions[format] || dimensions.feed], read as
    [{ width, height }]: an inherited value has neither property. *)
Definition dimensions (format : string) : num * num :=
  if String.eqb format "feed" then (Fin 1080, Fin 1350)
  else if String.eqb format "story" then (Fin 1080, Fin 1920)
  else if bool_decide (format ∈ dom inherited) then (NaN, NaN)
  else (Fin 1080, Fin 1350).

Definition headerHeight (format : string) : num :=
  if String.eqb format "story" then Fin 140 else Fin 120.

Definition footerHeight (format : string) : num :=
  if String.eqb format "story" then Fin 90 else Fin 80.

Definition contentHeight (format : string) : num :=
  ((dimensions format).2 - headerHeight format - footerHeight format)%num.

(** The body of [trends.forEach]: the state is the object [grouped]. *)
Definition groupStep (grouped : option (gmap string (list (gmap string value))))
    (item : gmap string value)
  : option (gmap string (list (gmap string value))) :=
  match grouped with
  | None => None
  | Some g =>
      let k := keyOf (categoryOf item) in
      match g !! k with
      | Some l => Some (<[k := l ++ [item]]> g)
      | None =>
          if bool_decide (k ∈ dom inherited) then None
          else Some (<[k := [item]]> g)
      end
  end.

Definition groupTrends (trends : list (gmap string value))
  : option (gmap string (list (gmap string value))) :=
  fold_left groupStep trends (Some ∅).

(** The test of [sortedCategories]:
    [cat.enabled !== false && grouped[cat.id] && grouped[cat.id].length > 0]. *)
Definition shown (grouped : gmap string (list (gmap string value)))
    (cat : category_t) : bool :=
  notDisabled cat
  && match grouped !! id cat with
     | Some l => (0 <? length l)%nat
     | None => default false (inherited !! id cat)
     end.

(** The body of [sortedCategories.map]: the state is [currentY] and the
    sections made so far.  [grouped[cat.id]] is an array of trends, or an
    inherited value, which has no [reduce]. *)
Definition sectionStep (grouped : gmap string (list (gmap string value)))
    (totalSize_ contentHeight_ : num) (st : option (num * list section_t))
    (cat : category_t) : option (num * list section_t) :=
  match st, grouped !! id cat with
  | Some (currentY, sections), Some catItems =>
      let catSize := totalSize catItems in
      let catHeight := (catSize / totalSize_ * contentHeight_)%num in
      Some ((currentY + catHeight)%num,
            sections ++ [Section_ cat catItems currentY catHeight])
  | _, _ => None
  end.

(** The array [sections] of [Heatmap]. *)
Definition sections (trends : list (gmap string value))
    (categories : list category_t) (format : string)
  : option (list section_t) :=
  match groupTrends trends with
  | None => None
  | Some grouped =>
      let sortedCategories :=
        sortCategories (List.filter (shown grouped) categories) in
      let enabledTrends := List.filter (isEnabled categories) trends in
      let totalSize_ := totalSize enabledTrends in
      match
        fold_left (sectionStep grouped totalSize_ (contentHeight format))
          sortedCategories (Some (headerHeight format, []))
      with
      | Some (_, sections) => Some sections
      | None => None
      end
  end.

(** The blocks of a section:
    [calculateLayout(items, width - 60, contentH, 6)] with
    [contentH = sectionHeight - categoryHeaderHeight]. *)
Definition sectionLayout (format : string) (s : section_t)
  : option (list (gmap string value)) :=
  let contentH := (height s - Fin 50)%num in
  calculateLayout (items s) ((dimensions format).1 - Fin 60)%num contentH (Fin 6).

End WithPrototype.

(** The trends whose category, as a property name, is [k], in the order
    of [trends]. *)
Definition trendsOf (k : string) (trends : list (gmap string value))
  : list (gmap string value) :=
  List.filter (fun t => String.eqb (keyOf (categoryOf t)) k) trends.

(** A property of [grouped]: missing, or a list that is not empty. *)
Definition nonempty {A} (l : list A) : option (list A) :=
  match l with
  | [] => None
  | _ => Some l
  end.

(** The sections are stacked from [top] down to [bottom]: each begins
    where the one before it ends. *)
Fixpoint stacked (top : num) (secs : list section_t) (bottom : num) : Prop :=
  match secs with
  | [] => same top bottom
  | s :: secs' => y s = top /\ stacked (y s + height s)%num secs' bottom
  end.

(** The trend has a category that [grouped] can hold: its name is not
    inherited. *)
Definition groupable (inherited : gmap string bool) (t : gmap string value)
  : Prop :=
  keyOf (categoryOf t) ∉ dom inherited.

(** The category is not disabled and its [id] names an inherited value of
    positive [length]. *)
Definition shadowed (inherited : gmap string bool) (cat : category_t) : Prop :=
  notDisabled cat = true /\ inherited !! id cat = Some true.

(** A trend of the examples. *)
Definition mkTrend (name cat : string) (sz : Q) : gmap string value :=
  <["category" := VStr cat]> (mkItem name sz).

End Heatmap.

(** * The arithmetic of the code: IEEE-754 doubles

    The numbers of JavaScript are binary64 floating-point numbers, and the
    operations of the code round.  The definitions above compute with
    exact rationals; a statement proved about them is a statement about
    the code where it does not depend on the arithmetic, or is the reading
    in exact arithmetic of a statement that holds of the code within
    floating-point tolerance.  To run the code on its own numbers, this
    module embeds the same functions of the layout over the primitive
    binary64 numbers: [+], [-], [*], [/] and the comparisons are the
    IEEE-754 operations, with NaN, the infinities and the two zeros.  What
    is evaluated here is what the code returns, digit for digit. *)

Module Double.

(** [Math.max(a, b)]: NaN as soon as one argument is NaN; of the two zeros,
    the positive one. *)
Definition jmax (a b : float) : float :=
  if is_nan a || is_nan b then nan
  else if PrimFloat.ltb a b then b
  else if PrimFloat.ltb b a then a
  else if get_sign a then b else a.

(** A property value: a number or a string. *)
Inductive value : Type :=
  | VNum (n : float) : value
  | VStr (s : string) : value.

(** Reading the property [k] as a number; a missing property is
    [undefined], which arithmetic turns into NaN. *)
Definition get_num (k : string) (o : gmap string value) : float :=
  match o !! k with
  | Some (VNum n) => n
  | _ => nan
  end.

Definition size (item : gmap string value) : float := get_num "size" item.
Definition normalizedSize (item : gmap string value) : float :=
  get_num "normalizedSize" item.

(** The object literal [{...item, x, y, width, height}]. *)
Definition placed (item : gmap string value) (x y width height : float)
  : gmap string value :=
  <["height" := VNum height]>
    (<["width" := VNum width]> (<["y" := VNum y]> (<["x" := VNum x]> item))).

(** The comparator of the sort: [(a, b) => b.normalizedSize - a.normalizedSize]. *)
Definition compareItems (a b : gmap string value) : float :=
  PrimFloat.sub (normalizedSize b) (normalizedSize a).

(** The stable sort: an element moves behind the next one only when the
    comparator is positive. *)
Fixpoint insertItem (a : gmap string value) (l : list (gmap string value))
  : list (gmap string value) :=
  match l with
  | [] => [a]
  | b :: l' =>
      if PrimFloat.ltb PrimFloat.zero (compareItems a b)
      then b :: insertItem a l' else a :: l
  end.

Definition sortItems (l : list (gmap string value)) : list (gmap string value) :=
  foldr insertItem [] l.

(** [worstRatio(row, area, side)] *)
Definition worstRatio (row : list (gmap string value)) (area side : float)
  : float :=
  if (length row =? 0)%nat then infinity
  else
    let length_ := PrimFloat.div area side in
    fold_left
      (fun worst item =>
         let itemSide := PrimFloat.div (normalizedSize item) length_ in
         let ratio :=
           jmax (PrimFloat.div length_ itemSide) (PrimFloat.div itemSide length_) in
         jmax worst ratio)
      row PrimFloat.zero.

(** The [while (i < items.length)] loop of [layoutSquarified]. *)
Fixpoint growRow (side : float) (rest row : list (gmap string value))
    (rowArea : float) : list (gmap string value) * float :=
  match rest with
  | [] => (row, rowArea)
  | item :: rest' =>
      let testRow := row ++ [item] in
      let testArea := PrimFloat.add rowArea (normalizedSize item) in
      if (length row =? 0)%nat then growRow side rest' (row ++ [item]) testArea
      else
        let currentWorst := worstRatio row rowArea side in
        let testWorst := worstRatio testRow testArea side in
        if PrimFloat.leb testWorst currentWorst
        then growRow side rest' (row ++ [item]) testArea
        else (row, rowArea)
  end.

(** The body of [row.forEach]. *)
Definition placeRowItem (padding x y rowLength : float) (vertical : bool)
    (st : float * list (gmap string value)) (item : gmap string value)
  : float * list (gmap string value) :=
  let itemSize := PrimFloat.div (normalizedSize item) rowLength in
  let half := PrimFloat.div padding PrimFloat.two in
  let rect :=
    if vertical then
      placed item
        (PrimFloat.add x half)
        (PrimFloat.add (PrimFloat.add y st.1) half)
        (jmax (PrimFloat.sub rowLength padding) PrimFloat.zero)
        (jmax (PrimFloat.sub itemSize padding) PrimFloat.zero)
    else
      placed item
        (PrimFloat.add (PrimFloat.add x st.1) half)
        (PrimFloat.add y half)
        (jmax (PrimFloat.sub itemSize padding) PrimFloat.zero)
        (jmax (PrimFloat.sub rowLength padding) PrimFloat.zero)
  in
  (PrimFloat.add st.1 itemSize, st.2 ++ [rect]).

(** [layoutSquarified(items, x, y, width, height)], pushing into [layouts];
    [None] is fuel exhausted. *)
Fixpoint layoutSquarified (fuel : nat) (padding : float)
    (items : list (gmap string value)) (x y width height : float)
    (layouts : list (gmap string value)) : option (list (gmap string value)) :=
  match fuel with
  | O => None
  | S fuel' =>
      match items with
      | [] => Some layouts
      | [item] =>
          let half := PrimFloat.div padding PrimFloat.two in
          Some (layouts ++
                  [placed item
                     (PrimFloat.add x half)
                     (PrimFloat.add y half)
                     (jmax (PrimFloat.sub width padding) PrimFloat.zero)
                     (jmax (PrimFloat.sub height padding) PrimFloat.zero)])
      | _ =>
          let vertical := PrimFloat.leb height width in
          let side := if vertical then height else width in
          let '(row, rowArea) := growRow side items [] PrimFloat.zero in
          let rowLength := PrimFloat.div rowArea side in
          let st :=
            fold_left (placeRowItem padding x y rowLength vertical) row
              (PrimFloat.zero, layouts) in
          let remaining := drop (length row) items in
          if (0 <? length remaining)%nat then
            if vertical then
              layoutSquarified fuel' padding remaining
                (PrimFloat.add x rowLength) y (PrimFloat.sub width rowLength)
                height st.2
            else
              layoutSquarified fuel' padding remaining
                x (PrimFloat.add y rowLength) width
                (PrimFloat.sub height rowLength) st.2
          else Some st.2
      end
  end.

(** The [.map(...)] step: [{...item, normalizedSize: ...}]. *)
Definition normalize (totalSize totalArea : float) (item : gmap string value)
  : gmap string value :=
  <["normalizedSize" :=
      VNum (PrimFloat.mul (PrimFloat.div (size item) totalSize) totalArea)]> item.

(** [items.reduce((sum, item) => sum + item.size, 0)] *)
Definition totalSize (items : list (gmap string value)) : float :=
  fold_left (fun sum item => PrimFloat.add sum (size item)) items PrimFloat.zero.

(** [calculateLayout(items, containerWidth, containerHeight, padding)] *)
Definition calculateLayout (items : list (gmap string value))
    (containerWidth containerHeight padding : float)
  : option (list (gmap string value)) :=
  if (length items =? 0)%nat then Some []
  else if PrimFloat.eqb (totalSize items) PrimFloat.zero then Some []
  else
    let totalArea := PrimFloat.mul containerWidth containerHeight in
    let normalizedItems :=
      sortItems (map (normalize (totalSize items) totalArea) items) in
    let fuel := length normalizedItems in
    match layoutSquarified fuel padding normalizedItems
            PrimFloat.zero PrimFloat.zero containerWidth containerHeight [] with
    | None => None
    | Some _ =>
        layoutSquarified fuel padding normalizedItems
          PrimFloat.zero PrimFloat.zero containerWidth containerHeight []
    end.

(** The item [{size: sz}]. *)
Definition sizeOnly (sz : float) : gmap string value := {[ "size" := VNum sz ]}.

End Double.

(** The rational or infinity that a double is. *)
Definition exact (f : float) : num :=
  match Prim2SF f with
  | S754_zero _ => Fin 0
  | S754_infinity false => PInf
  | S754_infinity true => NInf
  | S754_nan => NaN
  | S754_finite s m e =>
      let q := (inject_Z (Z.pos m) * Qpower 2 e)%Q in
      Fin (if s then - q else q)%Q
  end.

(** A returned object, its numbers read as what they are exactly. *)
Definition exactValue (v : Double.value) : value :=
  match v with
  | Double.VNum n => VNum (exact n)
  | Double.VStr s => VStr s
  end.

Definition exactRect (r : gmap string Double.value) : gmap string value :=
  exactValue <$> r.
(** * Proofs *)

(** ** The row-growing loop takes a non-empty prefix *)

Lemma growRow_prefix side rest row rowArea :
  exists k : nat,
    (k <= length rest)%nat /\
    (growRow side rest row rowArea).1 = row ++ take k rest /\
    (row = [] -> rest <> [] -> (1 <= k)%nat).
Proof.
  revert row rowArea.
  induction rest as [|item rest IH]; intros row rowArea.
  - exists 0%nat. simpl. rewrite app_nil_r. repeat split; [lia | congruence].
  - simpl. destruct (Nat.eqb_spec (length row) 0) as [Hlen | Hlen].
    + destruct (IH (row ++ [item]) (rowArea + normalizedSize item)%num)
        as (k & Hk & Heq & _).
      exists (S k). rewrite Heq, <- app_assoc. simpl.
      repeat split; [lia | lia].
    + destruct (jle _ _).
      * destruct (IH (row ++ [item]) (rowArea + normalizedSize item)%num)
          as (k & Hk & Heq & _).
        exists (S k). rewrite Heq, <- app_assoc. simpl.
        repeat split; [lia | lia].
      * exists 0%nat. simpl. rewrite app_nil_r.
        repeat split; [lia |]. intros ->. simpl in Hlen. congruence.
Qed.

(** Every finalized row holds at least one item and is a prefix of the items
    still to place. *)
Lemma growRow_first side items :
  items <> [] ->
  exists k : nat,
    (1 <= k <= length items)%nat /\
    (growRow side items [] (Fin 0)).1 = take k items.
Proof.
  intros Hne.
  destruct (growRow_prefix side items [] (Fin 0)) as (k & Hk & Heq & Hpos).
  exists k. split; [split; [auto | lia] | exact Heq].
Qed.

(** ** [layoutSquarified] pushes one object per item, in order *)

Lemma placeRow_cells padding x y rowLength vertical row :
  forall st,
    (fold_left (placeRowItem padding x y rowLength vertical) row st).2
    = st.2 ++
        zip_with (emit padding) row
          (rowCells x y rowLength vertical st.1 row).
Proof.
  induction row as [|item row IH]; intros st; simpl.
  - by rewrite app_nil_r.
  - rewrite IH. unfold placeRowItem. cbn [fst snd].
    rewrite <- app_assoc. simpl. f_equal. f_equal.
    unfold emit, rowCell. by destruct vertical.
Qed.

Lemma rowCells_length x y rowLength vertical row :
  forall offset, length (rowCells x y rowLength vertical offset row) = length row.
Proof. induction row as [|item row IH]; intros offset; simpl; [done | by rewrite IH]. Qed.

Lemma layoutCells_length fuel :
  forall items x y width height,
    (length items <= fuel)%nat ->
    length (layoutCells fuel items x y width height) = length items.
Proof.
  induction fuel as [|fuel IH]; intros items x y width height Hfuel.
  - destruct items; simpl in *; [done | lia].
  - destruct items as [|i1 [|i2 items]]; [done | done |].
    cbn [layoutCells].
    set (side := if jge width height then height else width).
    destruct (growRow_first side (i1 :: i2 :: items)) as (k & Hk & Hrow); [done |].
    destruct (growRow side (i1 :: i2 :: items) [] (Fin 0)) as [row rowArea].
    simpl in Hrow. subst row.
    rewrite length_app, rowCells_length.
    set (remaining := drop _ _).
    assert (Hrem : (length remaining <= fuel)%nat).
    { subst remaining. rewrite length_drop, length_take. simpl in *. lia. }
    assert (Hsplit : (length (take k (i1 :: i2 :: items)) + length remaining
                      = length (i1 :: i2 :: items))%nat).
    { subst remaining. rewrite length_drop, length_take. lia. }
    destruct (jge width height); rewrite IH by done; exact Hsplit.
Qed.

Lemma layoutSquarified_cells fuel padding :
  forall items x y width height layouts,
    (length items <= fuel)%nat -> (1 <= fuel)%nat ->
    layoutSquarified fuel padding items x y width height layouts
    = Some (layouts ++
              zip_with (emit padding) items
                (layoutCells fuel items x y width height)).
Proof.
  induction fuel as [|fuel IH]; intros items x y width height layouts Hfuel Hpos;
    [lia |].
  destruct items as [|i1 [|i2 items]].
  - simpl. by rewrite app_nil_r.
  - done.
  - cbn [layoutSquarified layoutCells].
    set (side := if jge width height then height else width).
    destruct (growRow_first side (i1 :: i2 :: items)) as (k & Hk & Hrow); [done |].
    destruct (growRow side (i1 :: i2 :: items) [] (Fin 0)) as [row rowArea].
    simpl in Hrow. subst row.
    rewrite placeRow_cells.
    set (row := take k (i1 :: i2 :: items)).
    set (remaining := drop (length row) (i1 :: i2 :: items)).
    assert (Hlen : length row = k) by (subst row; rewrite length_take; lia).
    assert (Hitems : i1 :: i2 :: items = row ++ remaining).
    { subst row remaining. rewrite length_take.
      replace (k `min` length (i1 :: i2 :: items))%nat with k by lia.
      by rewrite take_drop. }
    assert (Hrem : (length remaining <= fuel)%nat).
    { subst remaining. rewrite length_drop. simpl in *. lia. }
    assert (Hzip : forall A B : list cell,
               length A = length row ->
               zip_with (emit padding) (i1 :: i2 :: items) (A ++ B)
               = zip_with (emit padding) row A
                   ++ zip_with (emit padding) remaining B).
    { intros A B HA. clearbody row remaining. rewrite Hitems.
      by apply zip_with_app. }
    clearbody row remaining.
    destruct (Nat.ltb_spec 0 (length remaining)) as [Hlt | Hge].
    + destruct (jge width height); rewrite IH by lia;
        rewrite Hzip by (by rewrite rowCells_length); by rewrite app_assoc.
    + assert (remaining = []) as -> by (destruct remaining; simpl in *; [done | lia]).
      rewrite Hzip by (by rewrite rowCells_length).
      destruct fuel, (jge width height); simpl; by rewrite !app_nil_r.
Qed.

Lemma layoutCells_nil fuel x y w h : layoutCells fuel [] x y w h = [].
Proof. by destruct fuel. Qed.

(** Fuel beyond the number of items changes nothing. *)
Lemma layoutCells_fuel fuel :
  forall fuel' items x y width height,
    (length items <= fuel)%nat -> (length items <= fuel')%nat ->
    layoutCells fuel items x y width height
    = layoutCells fuel' items x y width height.
Proof.
  induction fuel as [|fuel IH]; intros fuel' items x y width height H1 H2.
  { destruct items; simpl in *; [by rewrite layoutCells_nil | lia]. }
  destruct fuel' as [|fuel'].
  { destruct items; simpl in *; [done | lia]. }
  destruct items as [|i1 [|i2 items]]; [done | done |].
  cbn [layoutCells].
  set (side := if jge width height then height else width).
  destruct (growRow_first side (i1 :: i2 :: items)) as (k & Hk & Hrow); [done |].
  destruct (growRow side (i1 :: i2 :: items) [] (Fin 0)) as [row rowArea].
  simpl in Hrow. subst row. f_equal.
  set (remaining := drop _ _).
  assert (Hrem : (length remaining < length (i1 :: i2 :: items))%nat).
  { subst remaining. rewrite length_drop, length_take. simpl in *. lia. }
  destruct (jge width height); apply IH; simpl in *; lia.
Qed.

Lemma layoutSquarified_fuel fuel fuel' padding items x y width height layouts :
  (length items <= fuel)%nat -> (1 <= fuel)%nat ->
  (length items <= fuel')%nat -> (1 <= fuel')%nat ->
  layoutSquarified fuel padding items x y width height layouts
  = layoutSquarified fuel' padding items x y width height layouts.
Proof.
  intros H1 H2 H3 H4. rewrite !layoutSquarified_cells by done.
  by rewrite (layoutCells_fuel fuel fuel').
Qed.

(** ** Finite arithmetic *)

Lemma Qeq_bool_false (a b : Q) : ~ a == b -> Qeq_bool a b = false.
Proof.
  intros Hne. destruct (Qeq_bool a b) eqn:E; [|done].
  apply Qeq_bool_iff in E. contradiction.
Qed.

Lemma Qle_bool_true (a b : Q) : a <= b -> Qle_bool a b = true.
Proof. intros Hle. by apply Qle_bool_iff. Qed.

Lemma jdiv_fin (a b : Q) : ~ b == 0 -> (Fin a / Fin b)%num = Fin (a / b).
Proof. intros Hb. unfold jdiv. by rewrite Qeq_bool_false. Qed.

Lemma jdiv_two (a : Q) : (Fin a / Fin 2)%num = Fin (a / 2).
Proof. apply jdiv_fin. lra. Qed.

Lemma jmax_zero_fin (a : Q) :
  jmax (Fin a) (Fin 0) = Fin (if Qle_bool a 0 then 0 else a).
Proof. unfold jmax, jle. by destruct (Qle_bool a 0). Qed.

(** [Math.max(v, 0)] is never negative: it is NaN or at least zero. *)
Lemma jmax_zero_cases (a : num) :
  jmax a (Fin 0) = NaN \/ jge (jmax a (Fin 0)) (Fin 0) = true.
Proof.
  destruct a as [| | |q]; simpl; auto.
  right. unfold jge, jle. destruct (Qle_bool q 0) eqn:E; [done |].
  apply Qle_bool_true. destruct (Qlt_le_dec 0 q) as [H | H]; [lra |].
  apply Qle_bool_iff in H. congruence.
Qed.

(** ** Properties of the pushed objects *)

Lemma get_num_insert_eq k v (o : gmap string value) :
  get_num k (<[k := VNum v]> o) = v.
Proof. unfold get_num. by rewrite lookup_insert_eq. Qed.

Lemma get_num_insert_ne k k' v (o : gmap string value) :
  k' <> k -> get_num k (<[k' := v]> o) = get_num k o.
Proof. intros Hne. unfold get_num. by rewrite lookup_insert_ne. Qed.

Lemma rect_x_placed item x y w h : rect_x (placed item x y w h) = x.
Proof.
  unfold rect_x, placed.
  rewrite !get_num_insert_ne by done. apply get_num_insert_eq.
Qed.

Lemma rect_y_placed item x y w h : rect_y (placed item x y w h) = y.
Proof.
  unfold rect_y, placed.
  rewrite !get_num_insert_ne by done. apply get_num_insert_eq.
Qed.

Lemma rect_width_placed item x y w h : rect_width (placed item x y w h) = w.
Proof.
  unfold rect_width, placed.
  rewrite !get_num_insert_ne by done. apply get_num_insert_eq.
Qed.

Lemma rect_height_placed item x y w h : rect_height (placed item x y w h) = h.
Proof. unfold rect_height, placed. apply get_num_insert_eq. Qed.

Lemma placed_other item x y w h k :
  k ∉ computed -> placed item x y w h !! k = item !! k.
Proof.
  intros Hk. unfold placed, computed in *.
  rewrite !lookup_insert_ne; [done | | | |]; intros <-; apply Hk; compute_done.
Qed.


Lemma normalizedSize_placed item x y w h :
  normalizedSize (placed item x y w h) = normalizedSize item.
Proof.
  unfold normalizedSize, get_num. rewrite placed_other; [done | compute_done].
Qed.

Lemma normalizedSize_normalize totalSize totalArea item :
  normalizedSize (normalize totalSize totalArea item)
  = ((size item / totalSize) * totalArea)%num.
Proof. unfold normalizedSize, normalize. apply get_num_insert_eq. Qed.

Lemma size_normalize totalSize totalArea item :
  size (normalize totalSize totalArea item) = size item.
Proof. unfold size, normalize. by rewrite get_num_insert_ne. Qed.

(** ** The sort *)

Lemma insertItem_perm a l : insertItem a l ≡ₚ a :: l.
Proof.
  induction l as [|b l IH]; cbn [insertItem]; [done |].
  destruct (jgt (compareItems a b) (Fin 0)); [|done].
  rewrite IH. apply Permutation_swap.
Qed.

Lemma sortItems_perm l : sortItems l ≡ₚ l.
Proof.
  induction l as [|a l IH]; simpl; [done |].
  rewrite insertItem_perm. by rewrite IH.
Qed.

Lemma pos_ns_nsQ item :
  pos_ns item -> normalizedSize item = Fin (nsQ item) /\ 0 < nsQ item.
Proof. intros (a & Ha & Hpos). unfold nsQ. by rewrite Ha. Qed.

Lemma sumNS_app l1 l2 : sumNS (l1 ++ l2) == sumNS l1 + sumNS l2.
Proof.
  induction l1 as [|a l1 IH]; simpl; [lra |]. rewrite IH. lra.
Qed.

Lemma sumNS_nonneg l : Forall pos_ns l -> 0 <= sumNS l.
Proof.
  induction 1 as [|a l Ha _ IH]; simpl; [lra |].
  apply pos_ns_nsQ in Ha. lra.
Qed.

Lemma sumNS_pos l : Forall pos_ns l -> l <> [] -> 0 < sumNS l.
Proof.
  intros Hl Hne. destruct Hl as [|a l Ha Hl]; [done |]. simpl.
  apply pos_ns_nsQ in Ha. apply sumNS_nonneg in Hl. lra.
Qed.

Lemma growRow_area side rest :
  forall row (ra : Q),
    Forall pos_ns rest ->
    exists (k : nat) (q : Q),
      (k <= length rest)%nat /\
      growRow side rest row (Fin ra) = (row ++ take k rest, Fin q) /\
      q == ra + sumNS (take k rest) /\
      (row = [] -> rest <> [] -> (1 <= k)%nat).
Proof.
  induction rest as [|item rest IH]; intros row ra Hpos.
  - exists 0%nat, ra. simpl. rewrite app_nil_r.
    repeat split; [lia | lra | congruence].
  - apply Forall_cons in Hpos as [Hitem Hpos].
    destruct (pos_ns_nsQ _ Hitem) as [Hns Ha].
    cbn [growRow]. rewrite Hns. cbn [jadd].
    destruct (IH (row ++ [item]) (ra + nsQ item) Hpos)
      as (k & q & Hk & Heq & Hq & _).
    assert (Hgrow :
      exists (k0 : nat) (q0 : Q),
        (k0 <= length (item :: rest))%nat /\
        growRow side rest (row ++ [item]) (Fin (ra + nsQ item))
        = (row ++ take k0 (item :: rest), Fin q0) /\
        q0 == ra + sumNS (take k0 (item :: rest)) /\
        (row = [] -> item :: rest <> [] -> (1 <= k0)%nat)).
    { exists (S k), q. rewrite Heq, <- app_assoc. simpl.
      repeat split; [lia | lra | lia]. }
    destruct (Nat.eqb_spec (length row) 0) as [Hlen | Hlen]; [exact Hgrow |].
    destruct (jle _ _); [exact Hgrow |].
    exists 0%nat, ra. simpl. rewrite app_nil_r.
    repeat split; [lia | lra |]. intros ->. simpl in Hlen. congruence.
Qed.

Lemma inside_weaken x y w h x' y' w' h' c :
  inside x y w h c ->
  x' <= x -> x + w <= x' + w' -> y' <= y -> y + h <= y' + h' ->
  inside x' y' w' h' c.
Proof. unfold inside. intros (? & ? & ? & ?) ? ? ? ?. repeat split; lra. Qed.

Lemma pairwise_apart_app l1 l2 :
  pairwise_apart l1 -> pairwise_apart l2 ->
  (forall c d, c ∈ l1 -> d ∈ l2 -> apart c d) ->
  pairwise_apart (l1 ++ l2).
Proof.
  induction l1 as [|c l1 IH]; intros H1 H2 Hcross; simpl; [done |].
  destruct H1 as [Hc H1]. split.
  - apply Forall_app. split; [done |].
    apply Forall_forall. intros d Hd. apply Hcross; [left | done].
  - apply IH; [done | done |].
    intros c' d Hc' Hd. apply Hcross; [by right | done].
Qed.

Lemma pairwise_apart_lookup l (i j : nat) c d :
  pairwise_apart l -> i <> j -> l !! i = Some c -> l !! j = Some d ->
  apart c d.
Proof.
  revert i j. induction l as [|e l IH]; intros i j Hl Hij Hi Hj; [done |].
  destruct Hl as [He Hl].
  destruct i as [|i], j as [|j]; simpl in *.
  - done.
  - injection Hi as ->. rewrite Forall_forall in He. apply He.
    by eapply list_elem_of_lookup_2.
  - injection Hj as ->. rewrite Forall_forall in He.
    assert (Hcd : apart d c) by (apply He; by eapply list_elem_of_lookup_2).
    unfold apart in *. tauto.
  - apply (IH i j); [done | lia | done | done].
Qed.

Lemma sumQ_nsQ l : sumQ (map nsQ l) = sumNS l.
Proof. induction l as [|a l IH]; simpl; [done | by rewrite IH]. Qed.

Lemma rowCells_qrow x y rl vertical row :
  0 < rl -> Forall pos_ns row ->
  forall offset,
    rowCells (Fin x) (Fin y) (Fin rl) vertical (Fin offset) row
    = map cell_of (qrow x y rl vertical offset (map nsQ row)).
Proof.
  intros Hrl Hrow. induction Hrow as [|item row Hitem _ IH]; intros offset.
  - done.
  - destruct (pos_ns_nsQ _ Hitem) as [Hns Ha].
    cbn [rowCells qrow map]. unfold rowCell. rewrite Hns.
    rewrite jdiv_fin by lra. cbn [jadd]. rewrite IH.
    by destruct vertical.
Qed.

Lemma Qdiv_plus (a b c : Q) : (a + b) / c == a / c + b / c.
Proof. unfold Qdiv. ring. Qed.

Lemma Qdiv_pos (a c : Q) : 0 < a -> 0 < c -> 0 < a / c.
Proof. intros Ha Hc. apply Qlt_shift_div_l; lra. Qed.

Lemma Qdiv_nonneg (a c : Q) : 0 <= a -> 0 < c -> 0 <= a / c.
Proof. intros Ha Hc. apply Qle_shift_div_l; lra. Qed.

Lemma sumQ_nonneg l : Forall (Qlt 0) l -> 0 <= sumQ l.
Proof. induction 1 as [|a l Ha _ IH]; simpl; lra. Qed.

Lemma qrow_spec x y rl vertical :
  0 < rl ->
  forall areas offset,
    Forall (Qlt 0) areas ->
    Forall2 good areas (qrow x y rl vertical offset areas) /\
    Forall (row_box x y rl vertical offset (sumQ areas / rl))
      (qrow x y rl vertical offset areas) /\
    pairwise_apart (qrow x y rl vertical offset areas).
Proof.
  intros Hrl areas.
  induction areas as [|a areas IH]; intros offset Hpos; [by repeat split |].
  apply Forall_cons in Hpos as [Ha Hpos].
  destruct (IH (offset + a / rl) Hpos) as (Hgood & Hbox & Hapart).
  pose proof (Qdiv_pos _ _ Ha Hrl) as Hitem.
  pose proof (Qdiv_nonneg _ _ (sumQ_nonneg _ Hpos) Hrl) as Hrest.
  pose proof (Qdiv_plus a (sumQ areas) rl) as Hsplit.
  assert (Harea : rl * (a / rl) == a) by (field; lra).
  cbn [qrow sumQ foldr].
  change (foldr Qplus 0 areas) with (sumQ areas).
  set (s := a / rl) in *. set (t := sumQ areas / rl) in *.
  set (u := (a + sumQ areas) / rl) in *.
  split; [|split].
  - constructor; [|done].
    unfold good. destruct vertical; simpl; repeat split; lra.
  - constructor.
    + unfold row_box, inside. destruct vertical; simpl; repeat split; lra.
    + eapply Forall_impl; [exact Hbox |].
      intros c. unfold row_box.
      destruct vertical; intros Hc; eapply inside_weaken; try exact Hc; lra.
  - split; [|done].
    eapply Forall_impl; [exact Hbox |].
    intros c. unfold row_box, inside, apart.
    destruct vertical; simpl; intros (? & ? & ? & ?); lra.
Qed.

Lemma row_length_facts (ra s o total : Q) :
  0 < ra -> 0 < s -> 0 < o -> o * s == total -> ra <= total ->
  0 < ra / s /\ ra / s <= o /\ (o + - (ra / s)) * s == total - ra /\
  (ra < total -> ra / s < o) /\ (ra == total -> ra / s == o).
Proof.
  intros Hra Hs Ho Htot Hle.
  assert (E : ra / s * s == ra) by (field; lra).
  pose proof (Qdiv_pos _ _ Hra Hs) as Hpos.
  set (rl := ra / s) in *.
  repeat split.
  - done.
  - nra.
  - nra.
  - intros. nra.
  - intros. nra.
Qed.

Lemma span_eq (ra s t : Q) : 0 < ra -> 0 < s -> t == ra -> t / (ra / s) == s.
Proof. intros Hra Hs ->. field. split; lra. Qed.

Lemma layoutCells_tiling fuel :
  forall items x y w h,
    Forall pos_ns items -> items <> [] -> (length items <= fuel)%nat ->
    0 < w -> 0 < h -> w * h == sumNS items ->
    exists qs : list qcell,
      layoutCells fuel items (Fin x) (Fin y) (Fin w) (Fin h) = map cell_of qs /\
      Forall2 good (map nsQ items) qs /\
      Forall (inside x y w h) qs /\
      pairwise_apart qs.
Proof.
  induction fuel as [|fuel IH]; intros items x y w h Hpos Hne Hfuel Hw Hh Harea.
  { destruct items; simpl in *; [done | lia]. }
  destruct items as [|i1 [|i2 items]]; [done | |].
  { exists [QCell x y w h]. simpl in Harea.
    split; [done |]. split; [|split].
    - repeat constructor; simpl; lra.
    - repeat constructor; simpl; lra.
    - by repeat constructor. }
  set (all := i1 :: i2 :: items) in *.
  assert (Hunfold :
    layoutCells (S fuel) all (Fin x) (Fin y) (Fin w) (Fin h)
    = let vertical := Qle_bool h w in
      let side := Fin (if vertical then h else w) in
      let '(row, rowArea) := growRow side all [] (Fin 0) in
      let rowLength := (rowArea / side)%num in
      let remaining := drop (length row) all in
      rowCells (Fin x) (Fin y) rowLength vertical (Fin 0) row ++
        (if vertical then
           layoutCells fuel remaining (Fin x + rowLength)%num (Fin y)
             (Fin w - rowLength)%num (Fin h)
         else
           layoutCells fuel remaining (Fin x) (Fin y + rowLength)%num (Fin w)
             (Fin h - rowLength)%num)).
  { subst all. cbn [layoutCells]. unfold jge, jle. by destruct (Qle_bool h w). }
  rewrite Hunfold. clear Hunfold. cbv zeta.
  set (vertical := Qle_bool h w).
  set (s := if vertical then h else w).
  set (o := if vertical then w else h).
  assert (Hs : 0 < s) by (subst s; by destruct vertical).
  assert (Ho : 0 < o) by (subst o; by destruct vertical).
  assert (Hos : o * s == sumNS all) by (rewrite <- Harea; subst o s; destruct vertical; ring).
  destruct (growRow_area (Fin s) all [] 0 Hpos) as (k & ra & Hk & Heq & Hra & Hk1).
  rewrite Heq. cbn [app].
  set (row := take k all) in *. set (remaining := drop (length row) all).
  assert (Hk1' : (1 <= k)%nat) by (by apply Hk1).
  assert (Hlen : length row = k) by (subst row; rewrite length_take; lia).
  assert (Hall : all = row ++ remaining).
  { subst row remaining. rewrite length_take.
    replace (k `min` length all)%nat with k by lia. by rewrite take_drop. }
  assert (Hposs : Forall pos_ns row /\ Forall pos_ns remaining).
  { apply Forall_app. by rewrite <- Hall. }
  destruct Hposs as [Hprow Hprem].
  assert (Hsum : sumNS all == sumNS row + sumNS remaining).
  { rewrite Hall at 1. apply sumNS_app. }
  assert (Hrowpos : 0 < sumNS row).
  { apply sumNS_pos; [done |]. intros E. rewrite E in Hlen. simpl in Hlen. lia. }
  pose proof (sumNS_nonneg _ Hprem) as Hremnn.
  assert (Hra' : ra == sumNS row) by lra.
  assert (Hrapos : 0 < ra) by lra.
  destruct (row_length_facts ra s o (sumNS all) Hrapos Hs Ho Hos ltac:(lra))
    as (Hrl & Hrlo & Hleft & Hlt & Hfull).
  rewrite jdiv_fin by lra.
  rewrite (rowCells_qrow x y (ra / s) vertical row Hrl Hprow 0).
  destruct (qrow_spec x y (ra / s) vertical Hrl (map nsQ row) 0) as (Hgood & Hbox & Hapart).
  { apply Forall_fmap. eapply Forall_impl; [exact Hprow |].
    intros it Hit. by apply pos_ns_nsQ in Hit as [_ ?]. }
  rewrite sumQ_nsQ in Hbox.
  pose proof (span_eq ra s (sumNS row) Hrapos Hs ltac:(lra)) as Hspan.
  set (rl := ra / s) in *. set (span := sumNS row / rl) in *.
  assert (Hlenall : (length all = k + length remaining)%nat).
  { rewrite Hall at 1. rewrite length_app. lia. }
  clearbody vertical row remaining all.
  destruct (decide (remaining = [])) as [-> | Hrem].
  - exists (qrow x y rl vertical 0 (map nsQ row)).
    simpl in Hsum. rewrite app_nil_r in Hall. subst all.
    assert (Hrlo' : rl == o) by (apply Hfull; lra).
    split; [|split; [done | split; [|done]]].
    + destruct vertical; by rewrite layoutCells_nil, app_nil_r.
    + eapply Forall_impl; [exact Hbox |]. intros c. unfold row_box. subst o s.
      destruct vertical; intros Hc; eapply inside_weaken; try exact Hc; lra.
  - assert (Hrempos : 0 < sumNS remaining) by (by apply sumNS_pos).
    assert (Hrlo' : rl < o) by (apply Hlt; lra).
    assert (Hremlen : (length remaining <= fuel)%nat) by lia.
    assert (Hrec : exists qs' : list qcell,
      (if vertical
       then layoutCells fuel remaining (Fin x + Fin rl)%num (Fin y)
              (Fin w - Fin rl)%num (Fin h)
       else layoutCells fuel remaining (Fin x) (Fin y + Fin rl)%num (Fin w)
              (Fin h - Fin rl)%num) = map cell_of qs' /\
      Forall2 good (map nsQ remaining) qs' /\
      Forall (if vertical then inside (x + rl) y (w + - rl) h
              else inside x (y + rl) w (h + - rl)) qs' /\
      pairwise_apart qs').
    { subst o s. destruct vertical.
      - destruct (IH remaining (x + rl) y (w + - rl) h) as (qs' & ? & ? & ? & ?);
          [done | done | done | lra | lra | lra |].
        exists qs'. by repeat split.
      - destruct (IH remaining x (y + rl) w (h + - rl)) as (qs' & ? & ? & ? & ?);
          [done | done | done | lra | lra | lra |].
        exists qs'. by repeat split. }
    destruct Hrec as (qs' & Hcells & Hgood' & Hin' & Hapart').
    exists (qrow x y rl vertical 0 (map nsQ row) ++ qs').
    rewrite Hcells, map_app. split; [done |].
    split; [|split].
    + rewrite Hall, map_app. by apply Forall2_app.
    + apply Forall_app. subst o s. split.
      * eapply Forall_impl; [exact Hbox |]. intros c. unfold row_box.
        destruct vertical; intros Hc; eapply inside_weaken; try exact Hc; lra.
      * eapply Forall_impl; [exact Hin' |]. intros c.
        destruct vertical; intros Hc; eapply inside_weaken; try exact Hc; lra.
    + apply pairwise_apart_app; [done | done |].
      intros c d Hc Hd.
      rewrite Forall_forall in Hbox. specialize (Hbox c Hc).
      rewrite Forall_forall in Hin'. specialize (Hin' d Hd).
      unfold row_box, inside, apart in *.
      destruct vertical; lra.
Qed.

(** ** [calculateLayout] in terms of cells *)

Lemma sortItems_length l : length (sortItems l) = length l.
Proof. by rewrite (Permutation_length (sortItems_perm l)). Qed.

Lemma normalizedItems_length items W H :
  length (normalizedItems items W H) = length items.
Proof. unfold normalizedItems. by rewrite sortItems_length, length_map. Qed.

(** The layout returned on any input: nothing when the list is empty or the
    sizes add up to zero, and otherwise one object per normalized item, in
    the order of [normalizedItems]. *)
Lemma calculateLayout_cells items W H padding :
  calculateLayout items W H padding
  = Some (if (length items =? 0)%nat || jeq (totalSize items) (Fin 0) then []
          else
            zip_with (emit padding) (normalizedItems items W H)
              (layoutCells (length items) (normalizedItems items W H)
                 (Fin 0) (Fin 0) W H)).
Proof.
  unfold calculateLayout.
  destruct (Nat.eqb_spec (length items) 0) as [Hlen | Hlen]; [done |].
  destruct (jeq (totalSize items) (Fin 0)); [done |]. cbn [orb].
  rewrite normalizedItems_length.
  rewrite layoutSquarified_cells
    by (rewrite ?normalizedItems_length; lia).
  done.
Qed.

(** ** Positive sizes in a positive rectangle *)

Lemma pos_size_sizeQ item :
  pos_size item -> size item = Fin (sizeQ item) /\ 0 < sizeQ item.
Proof. intros (s & Hs & Hpos). unfold sizeQ. by rewrite Hs. Qed.

Lemma sumSize_nonneg l : Forall pos_size l -> 0 <= sumSize l.
Proof.
  induction 1 as [|a l Ha _ IH]; simpl; [lra |].
  apply pos_size_sizeQ in Ha. lra.
Qed.

Lemma sumSize_pos l : Forall pos_size l -> l <> [] -> 0 < sumSize l.
Proof.
  intros Hl Hne. destruct Hl as [|a l Ha Hl]; [done |]. simpl.
  apply pos_size_sizeQ in Ha. apply sumSize_nonneg in Hl. lra.
Qed.

Lemma totalSize_from l :
  Forall pos_size l ->
  forall acc : Q,
    exists T : Q,
      fold_left (fun sum item => (sum + size item)%num) l (Fin acc) = Fin T /\
      T == acc + sumSize l.
Proof.
  induction 1 as [|a l Ha _ IH]; intros acc; simpl.
  - exists acc. split; [done | lra].
  - destruct (pos_size_sizeQ _ Ha) as [-> _]. cbn [jadd].
    destruct (IH (acc + sizeQ a)) as (T & -> & HT).
    exists T. split; [done | lra].
Qed.

Lemma totalSize_pos items :
  Forall pos_size items -> items <> [] ->
  exists T : Q, totalSize items = Fin T /\ T == sumSize items /\ 0 < T.
Proof.
  intros Hpos Hne. destruct (totalSize_from items Hpos 0) as (T & HT & Hsum).
  pose proof (sumSize_pos _ Hpos Hne).
  exists T. repeat split; [done | lra | lra].
Qed.

Lemma normalize_pos (T A : Q) item :
  pos_size item -> 0 < T -> 0 < A ->
  normalizedSize (normalize (Fin T) (Fin A) item) = Fin (sizeQ item / T * A) /\
  0 < sizeQ item / T * A.
Proof.
  intros Hitem HT HA. destruct (pos_size_sizeQ _ Hitem) as [Hs Hpos].
  rewrite normalizedSize_normalize, Hs, jdiv_fin by lra. split; [done |].
  apply Qmult_lt_0_compat; [by apply Qdiv_pos | done].
Qed.

Lemma normal_pos_ns T A item : normal T A item -> pos_ns item.
Proof. intros (_ & Hns & Hpos). by eexists. Qed.

Lemma normal_nsQ T A item : normal T A item -> nsQ item = sizeQ item / T * A.
Proof. intros (_ & Hns & _). unfold nsQ. by rewrite Hns. Qed.

Lemma normalize_normal (T A : Q) item :
  pos_size item -> 0 < T -> 0 < A -> normal T A (normalize (Fin T) (Fin A) item).
Proof.
  intros Hitem HT HA. destruct (normalize_pos T A item Hitem HT HA) as [Hns Hpos].
  unfold normal. unfold sizeQ, pos_size in *. rewrite size_normalize. done.
Qed.

Lemma sumNS_normal T A l :
  Forall (normal T A) l -> sumNS l == sumSize l / T * A.
Proof.
  induction 1 as [|a l Ha _ IH]; simpl.
  - unfold Qdiv. ring.
  - rewrite (normal_nsQ _ _ _ Ha), IH. unfold Qdiv. ring.
Qed.

Lemma sumSize_perm l l' : l ≡ₚ l' -> sumSize l == sumSize l'.
Proof.
  induction 1 as [|a l l' _ IH|a b l|l1 l2 l3 _ IH1 _ IH2]; simpl; lra.
Qed.

Lemma sumSize_normalize T A l :
  sumSize (map (normalize T A) l) = sumSize l.
Proof.
  induction l as [|a l IH]; simpl; [done |].
  rewrite IH. unfold sizeQ. by rewrite size_normalize.
Qed.

Lemma normalizedItems_pos items (W H : Q) :
  Forall pos_size items -> items <> [] -> 0 < W -> 0 < H ->
  exists T : Q,
    totalSize items = Fin T /\ 0 < T /\ T == sumSize items /\
    Forall (normal T (W * H)) (normalizedItems items (Fin W) (Fin H)) /\
    sumNS (normalizedItems items (Fin W) (Fin H)) == W * H.
Proof.
  intros Hpos Hne HW HH.
  destruct (totalSize_pos items Hpos Hne) as (T & HT & Hsum & HTpos).
  assert (HA : 0 < W * H) by (by apply Qmult_lt_0_compat).
  exists T. split; [done |]. split; [done |]. split; [done |].
  unfold normalizedItems. rewrite HT. cbn [jmul].
  assert (Hnorm : Forall (normal T (W * H))
                    (sortItems (map (normalize (Fin T) (Fin (W * H))) items))).
  { rewrite sortItems_perm. apply Forall_fmap.
    eapply Forall_impl; [exact Hpos |]. intros it Hit. by apply normalize_normal. }
  split; [done |].
  rewrite (sumNS_normal _ _ _ Hnorm).
  rewrite (sumSize_perm _ _ (sortItems_perm _)), sumSize_normalize.
  rewrite <- Hsum. field. lra.
Qed.

(** The layout of a positive input tiles the rectangle: every item gets a
    cell of its normalized area, the cells lie in the rectangle and no two
    of them share an interior point. *)
Lemma calculateLayout_tiling items (W H : Q) :
  Forall pos_size items -> items <> [] -> 0 < W -> 0 < H ->
  exists (T : Q) (qs : list qcell),
    totalSize items = Fin T /\ 0 < T /\
    Forall (normal T (W * H)) (normalizedItems items (Fin W) (Fin H)) /\
    (forall padding,
        calculateLayout items (Fin W) (Fin H) padding
        = Some (zip_with (emit padding) (normalizedItems items (Fin W) (Fin H))
                  (map cell_of qs))) /\
    Forall2 good (map nsQ (normalizedItems items (Fin W) (Fin H))) qs /\
    Forall (inside 0 0 W H) qs /\
    pairwise_apart qs /\
    sumNS (normalizedItems items (Fin W) (Fin H)) == W * H.
Proof.
  intros Hpos Hne HW HH.
  destruct (normalizedItems_pos items W H Hpos Hne HW HH)
    as (T & HT & HTpos & _ & Hnorm & Hsum).
  exists T.
  assert (Hlen : length items <> 0%nat) by (by destruct items).
  destruct (layoutCells_tiling (length items)
              (normalizedItems items (Fin W) (Fin H)) 0 0 W H)
    as (qs & Hcells & Hgood & Hin & Hapart).
  - eapply Forall_impl; [exact Hnorm |]. apply normal_pos_ns.
  - intros E. apply (f_equal length) in E.
    rewrite normalizedItems_length in E. done.
  - by rewrite normalizedItems_length.
  - done.
  - done.
  - lra.
  - exists qs. repeat split; try done.
    intros padding. rewrite calculateLayout_cells, HT, <- Hcells.
    destruct (Nat.eqb_spec (length items) 0) as [? | _]; [done |].
    cbn [orb jeq]. by rewrite Qeq_bool_false by lra.
Qed.

(** ** Every object carries its item *)

Lemma carries_emit padding T A item c :
  carries item (emit padding (normalize T A item) c).
Proof.
  split.
  - intros k Hk. unfold emit. rewrite placed_other.
    + unfold normalize. rewrite lookup_insert_ne; [done |].
      intros <-. apply Hk. compute_done.
    + intros Hin. apply Hk. unfold written, computed in *.
      by apply list_elem_of_further.
  - unfold emit, placed. eexists _, _, _, _.
    repeat split.
    + rewrite !lookup_insert_ne by done. apply lookup_insert_eq.
    + rewrite !lookup_insert_ne by done. apply lookup_insert_eq.
    + rewrite !lookup_insert_ne by done. apply lookup_insert_eq.
    + apply lookup_insert_eq.
Qed.

Lemma carries_zip padding T A :
  forall l cells,
    length l = length cells ->
    Forall2 carries l (zip_with (emit padding) (map (normalize T A) l) cells).
Proof.
  induction l as [|a l IH]; intros [|c cells] Hlen; simpl in *; try done.
  constructor; [apply carries_emit | apply IH; lia].
Qed.

Lemma StronglySorted_lookup_lt {A} (R : A -> A -> Prop) (l : list A)
    (i j : nat) a b :
  StronglySorted R l -> (i < j)%nat -> l !! i = Some a -> l !! j = Some b ->
  R a b.
Proof.
  intros Hsorted. revert i j.
  induction Hsorted as [|c l _ IH Hc]; intros i j Hij Hi Hj; [done |].
  destruct j as [|j]; [lia |]. destruct i as [|i]; simpl in *.
  - injection Hi as ->. rewrite Forall_forall in Hc. apply Hc.
    by eapply list_elem_of_lookup_2.
  - apply (IH i j); [lia | done | done].
Qed.

(** ** The padded rectangle of a cell *)

Lemma Qle_bool_false_inv (a b : Q) : Qle_bool a b = false -> b < a.
Proof.
  intros E. destruct (Qlt_le_dec b a) as [? | Hle]; [done |].
  apply Qle_bool_iff in Hle. congruence.
Qed.

(** Case analysis on every rational comparison in sight. *)
Ltac qbools :=
  repeat match goal with
    | H : Qle_bool _ _ = true |- _ => apply Qle_bool_iff in H
    | H : Qle_bool _ _ = false |- _ => apply Qle_bool_false_inv in H
    | |- context [Qle_bool ?a ?b] => destruct (Qle_bool a b) eqn:?
    | H : context [Qle_bool ?a ?b] |- _ => destruct (Qle_bool a b) eqn:?
    end.

Lemma clampQ_cases (a : Q) :
  (a <= 0 /\ clampQ a = 0) \/ (0 < a /\ clampQ a = a).
Proof. unfold clampQ. qbools; [left | right]; done. Qed.

Lemma clampQ_nonneg (a : Q) : 0 <= clampQ a.
Proof. destruct (clampQ_cases a) as [[? ->] | [? ->]]; lra. Qed.

Lemma emit_fin (p : Q) item (c : qcell) :
  rect_x (emit (Fin p) item (cell_of c)) = Fin (qx c + p / 2) /\
  rect_y (emit (Fin p) item (cell_of c)) = Fin (qy c + p / 2) /\
  rect_width (emit (Fin p) item (cell_of c)) = Fin (clampQ (qw c + - p)) /\
  rect_height (emit (Fin p) item (cell_of c)) = Fin (clampQ (qh c + - p)).
Proof.
  unfold emit.
  rewrite rect_x_placed, rect_y_placed, rect_width_placed, rect_height_placed.
  cbn [cell_of cx cy cw ch]. rewrite jdiv_two. cbn [jsub jneg jadd].
  by rewrite !jmax_zero_fin.
Qed.

Lemma half_sum (p : Q) : p / 2 + p / 2 == p.
Proof. field. Qed.

(** Two intervals [x1, x1 + w1] and [x2, x2 + w2] that are empty or apart
    have no common stretch of positive length. *)
Lemma stretch_apart (x1 w1 x2 w2 : Q) :
  w1 == 0 \/ w2 == 0 \/ x1 + w1 <= x2 \/ x2 + w2 <= x1 ->
  0 <= w1 -> 0 <= w2 ->
  jlt (jmax (Fin x1) (Fin x2)) (jmin (Fin x1 + Fin w1)%num (Fin x2 + Fin w2)%num)
  = false.
Proof.
  intros Hcases H1 H2. cbn [jadd jmax jmin jle].
  qbools; cbn [jlt]; qbools; try done; exfalso; lra.
Qed.

(** The padded rectangle of a cell is empty or lies inside the cell, at
    least half the padding away from its sides. *)
Lemma padded_stretch (x w p : Q) :
  0 <= p ->
  clampQ (w + - p) == 0 \/
  (x <= x + p / 2 /\ x + p / 2 + clampQ (w + - p) <= x + w - p / 2).
Proof.
  intros Hp. pose proof (half_sum p).
  destruct (clampQ_cases (w + - p)) as [[? ->] | [? ->]];
    [left; lra | right; split; lra].
Qed.

Lemma overlaps_apart (p : Q) a b (c d : qcell) :
  0 <= p -> apart c d ->
  overlaps (emit (Fin p) a (cell_of c)) (emit (Fin p) b (cell_of d)) = false.
Proof.
  intros Hp Hapart. unfold overlaps.
  destruct (emit_fin p a c) as (-> & -> & -> & ->).
  destruct (emit_fin p b d) as (-> & -> & -> & ->).
  pose proof (clampQ_nonneg (qw c + - p)).
  pose proof (clampQ_nonneg (qh c + - p)).
  pose proof (clampQ_nonneg (qw d + - p)).
  pose proof (clampQ_nonneg (qh d + - p)).
  pose proof (padded_stretch (qx c) (qw c) p Hp).
  pose proof (padded_stretch (qy c) (qh c) p Hp).
  pose proof (padded_stretch (qx d) (qw d) p Hp).
  pose proof (padded_stretch (qy d) (qh d) p Hp).
  assert (Haxis :
    (clampQ (qw c + - p) == 0 \/ clampQ (qw d + - p) == 0 \/
     qx c + p / 2 + clampQ (qw c + - p) <= qx d + p / 2 \/
     qx d + p / 2 + clampQ (qw d + - p) <= qx c + p / 2) \/
    (clampQ (qh c + - p) == 0 \/ clampQ (qh d + - p) == 0 \/
     qy c + p / 2 + clampQ (qh c + - p) <= qy d + p / 2 \/
     qy d + p / 2 + clampQ (qh d + - p) <= qy c + p / 2)).
  { pose proof (half_sum p). unfold apart in Hapart. lra. }
  destruct Haxis as [Hx | Hy].
  - rewrite stretch_apart by done. done.
  - rewrite (stretch_apart (qy c + p / 2)) by done. apply andb_false_r.
Qed.

(** ** Areas before the padding *)




(** ** Sides are not negative *)

Lemma not_negative_emit padding item c :
  not_negative (rect_width (emit padding item c)) /\
  not_negative (rect_height (emit padding item c)).
Proof.
  unfold emit. rewrite rect_width_placed, rect_height_placed.
  split; apply jmax_zero_cases.
Qed.

Lemma Forall_zip_with_emit (P : gmap string value -> Prop) padding l cells :
  (forall item c, item ∈ l -> c ∈ cells -> P (emit padding item c)) ->
  Forall P (zip_with (emit padding) l cells).
Proof.
  intros HP. apply Forall_forall. intros r Hr.
  apply list_elem_of_lookup in Hr as [i Hi].
  apply lookup_zip_with_Some in Hi as (a & c & -> & Ha & Hc).
  apply HP; by eapply list_elem_of_lookup_2.
Qed.

(** ** Tests and what they decide *)

Lemma same_zero_plus (n : num) : same (Fin 0 + n)%num n.
Proof. destruct n as [| | |q]; simpl; [done | done | done | lra]. Qed.

Lemma sameb_same a b : sameb a b = true <-> same a b.
Proof.
  destruct a, b; simpl; try (split; [discriminate | contradiction]); try done.
  apply Qeq_bool_iff.
Qed.

Lemma forallb_Forall {A} (P : A -> Prop) (f : A -> bool) (l : list A) :
  (forall a, f a = true <-> P a) -> forallb f l = true <-> Forall P l.
Proof.
  intros Hf. induction l as [|a l IH]; simpl.
  - split; [constructor | done].
  - rewrite andb_true_iff, Hf, IH. split.
    + intros [? ?]. by constructor.
    + intros H. by apply Forall_cons in H.
Qed.

Lemma rect_atb_spec r b : rect_atb r b = true <-> rect_at r b.
Proof.
  unfold rect_atb, rect_at. rewrite !andb_true_iff, !sameb_same. tauto.
Qed.

Lemma rects_atb_spec out bs : rects_atb out bs = true -> Forall2 rect_at out bs.
Proof.
  revert bs. induction out as [|r out IH]; intros [|b bs] H; simpl in H;
    try discriminate; [constructor |].
  apply andb_true_iff in H as [Hr Hout].
  constructor; [by apply rect_atb_spec | by apply IH].
Qed.

Lemma sides_ge0b_spec r : sides_ge0b r = true <-> sides_ge0 r.
Proof. unfold sides_ge0b, sides_ge0. by rewrite andb_true_iff. Qed.



(** The layout as [calculateLayout_cells] gives it, to evaluate tests on. *)
Lemma calculateLayout_total items W H padding :
  exists out, calculateLayout items W H padding = Some out.
Proof. rewrite calculateLayout_cells. by eexists. Qed.


(** ** The order of the numbers computed *)

Lemma insertItem_ns_jge a l :
  finite_ns a -> Forall finite_ns l ->
  StronglySorted ns_jge l -> StronglySorted ns_jge (insertItem a l).
Proof.
  intros [qa Ha] Hl Hsorted.
  induction Hsorted as [|b l Hsorted IH Hb]; cbn [insertItem].
  - by repeat constructor.
  - apply Forall_cons in Hl as [[qb Hqb] Hl].
    unfold jgt, compareItems. rewrite Ha, Hqb. cbn [jsub jneg jadd jlt].
    destruct (Qle_bool (qb + - qa) 0) eqn:E; cbn [negb].
    + apply Qle_bool_iff in E.
      assert (Hab : ns_jge a b).
      { unfold ns_jge, jge. rewrite Ha, Hqb. cbn [jle]. apply Qle_bool_iff. lra. }
      constructor; [by constructor |].
      constructor; [done |].
      rewrite Forall_forall in Hb, Hl. apply Forall_forall. intros c Hc.
      specialize (Hb c Hc). destruct (Hl c Hc) as [qc Hqc].
      unfold ns_jge, jge in *. rewrite Ha, Hqc. rewrite Hqb, Hqc in Hb.
      cbn [jle] in *. apply Qle_bool_iff. apply Qle_bool_iff in Hb. lra.
    + apply Qle_bool_false_inv in E.
      constructor; [by apply IH |].
      rewrite insertItem_perm. constructor; [| done].
      unfold ns_jge, jge. rewrite Ha, Hqb. cbn [jle]. apply Qle_bool_iff. lra.
Qed.

Lemma sortItems_ns_jge l :
  Forall finite_ns l -> StronglySorted ns_jge (sortItems l).
Proof.
  induction 1 as [|a l Ha Hl IH]; simpl; [constructor |].
  apply insertItem_ns_jge; [done | by rewrite sortItems_perm | done].
Qed.

(** The array [normalizedItems] is in non-increasing order of the
    normalized sizes, when these are finite numbers. *)
Lemma normalizedItems_sorted items W H :
  Forall (finite_share items W H) items ->
  StronglySorted ns_jge (normalizedItems items W H).
Proof.
  intros Hfin. unfold normalizedItems. apply sortItems_ns_jge.
  apply Forall_fmap. eapply Forall_impl; [exact Hfin |].
  intros item [q Hq]. exists q. cbn. by rewrite normalizedSize_normalize.
Qed.

(** A share of a total that is zero is not a finite number. *)
Lemma finite_share_total items W H :
  items <> [] -> Forall (finite_share items W H) items ->
  jeq (totalSize items) (Fin 0) = false.
Proof.
  intros Hne Hfin. destruct items as [|a l]; [done |].
  apply Forall_inv in Hfin as [q Hq].
  destruct (totalSize (a :: l)) as [| | |t]; try done.
  cbn [jeq]. destruct (Qeq_bool t 0) eqn:Et; [| done]. exfalso.
  destruct (size a) as [| | |s]; destruct (W * H)%num as [| | |A];
    cbn [jdiv jmul] in Hq; rewrite ?Et in Hq;
    repeat match type of Hq with
      | context [if ?b then _ else _] => destruct b
      end;
    cbn [jmul] in Hq; unfold inf_times in Hq;
    repeat match type of Hq with
      | context [if ?b then _ else _] => destruct b
      end;
    discriminate Hq.
Qed.

(** ** One rectangle for each item *)

(** Whatever the numbers, when the code reaches the layout the output is,
    in order, the image of a permutation of the items. *)
Lemma calculateLayout_carries items W H padding :
  jeq (totalSize items) (Fin 0) = false ->
  exists out items',
    calculateLayout items W H padding = Some out /\
    items' ≡ₚ items /\
    Forall2 carries items' out.
Proof.
  intros Hzero. rewrite calculateLayout_cells, Hzero, orb_false_r.
  destruct (Nat.eqb_spec (length items) 0) as [Hlen | Hlen].
  { destruct items; [| done]. exists [], []. by repeat split. }
  set (cells := layoutCells _ _ _ _ _ _).
  assert (Hcells : length cells = length items).
  { subst cells. rewrite layoutCells_length; rewrite normalizedItems_length; done. }
  clearbody cells. unfold normalizedItems.
  destruct (Permutation_map_inv _ _
              (sortItems_perm (map (normalize (totalSize items) (W * H)%num) items)))
    as (items' & Hmap & Hperm).
  rewrite Hmap. eexists _, items'. split; [reflexivity |].
  split; [by symmetry |].
  apply carries_zip. rewrite Hcells. by apply Permutation_length.
Qed.

(** The head of the cells is at the origin of the rectangle. *)
Lemma layoutCells_head fuel item items (x y : Q) w h :
  (length (item :: items) <= fuel)%nat ->
  exists c cells,
    layoutCells fuel (item :: items) (Fin x) (Fin y) w h = c :: cells /\
    same (cx c) (Fin x) /\ same (cy c) (Fin y).
Proof.
  intros Hfuel. destruct fuel as [|fuel]; [simpl in Hfuel; lia |].
  destruct items as [|i2 items].
  { eexists _, _. split; [reflexivity |]. cbn [cx cy same]. split; lra. }
  cbn [layoutCells].
  set (side := if jge w h then h else w).
  destruct (growRow_first side (item :: i2 :: items)) as (k & Hk & Hrow); [done |].
  destruct (growRow side (item :: i2 :: items) [] (Fin 0)) as [row rowArea].
  simpl in Hrow. subst row.
  destruct k as [|k]; [lia |]. cbn [take rowCells app].
  eexists _, _. split; [reflexivity |].
  unfold rowCell. destruct (jge w h); cbn [cx cy jadd same]; split; lra.
Qed.

(** * The claims of the specification *)







(** C3, as the code has it: within floating-point tolerance.  With a
    positive padding, all sizes positive and a rectangle of positive width
    and height, no two of the returned rectangles intersect with positive
    area, when the numbers are computed exactly. *)
Theorem calculateLayout_no_overlap items (W H p : Q) :
  Forall pos_size items -> 0 < W -> 0 < H -> 0 < p ->
  exists out,
    calculateLayout items (Fin W) (Fin H) (Fin p) = Some out /\
    (forall (i j : nat) r1 r2,
        i <> j -> out !! i = Some r1 -> out !! j = Some r2 ->
        overlaps r1 r2 = false).
Proof.
  intros Hpos HW HH Hp.
  destruct (decide (items = [])) as [-> | Hne].
  { exists []. split; [done | done]. }
  destruct (calculateLayout_tiling items W H Hpos Hne HW HH)
    as (T & qs & _ & _ & _ & Hout & _ & _ & Hapart & _).
  eexists. split; [exact (Hout (Fin p)) |].
  intros i j r1 r2 Hij H1 H2. rewrite zip_with_fmap_r in H1, H2.
  apply lookup_zip_with_Some in H1 as (a & c & -> & _ & Hc).
  apply lookup_zip_with_Some in H2 as (b & d & -> & _ & Hd).
  apply overlaps_apart; [lra |].
  by apply (pairwise_apart_lookup qs i j).
Qed.

Lemma calculateLayout_no_overlap_witness :
  exists out,
    calculateLayout [mkItem "a" 60; mkItem "b" 30; mkItem "c" 10]
      (Fin 300) (Fin 200) (Fin 3) = Some out /\
    (forall (i j : nat) r1 r2,
        i <> j -> out !! i = Some r1 -> out !! j = Some r2 ->
        overlaps r1 r2 = false).
Proof.
  apply calculateLayout_no_overlap; [|reflexivity | reflexivity | reflexivity].
  repeat constructor; eexists; (split; [vm_compute; reflexivity | reflexivity]).
Defined.

(** C3 as stated fails on the doubles the code computes with.  For the
    sizes 47 and 75 in a rectangle 119 by 1864 with padding 1e-13, the
    first rectangle returned is at [y = 5e-14] with the height
    1145.9016393442623 (the subtraction of the padding rounds back to the
    height of the row), and the second is at [y = 1145.9016393442623]
    (adding half the padding rounds away): read as the numbers they are,
    the two rectangles, each about 119 wide, overlap over a height of
    5e-14. *)
Lemma calculateLayout_rounding_overlap :
  exists out r1 r2,
    Double.calculateLayout [Double.sizeOnly 47; Double.sizeOnly 75]
      119 1864 1e-13 = Some out /\
    out !! 0%nat = Some r1 /\ out !! 1%nat = Some r2 /\
    overlaps (exactRect r1) (exactRect r2) = true.
Proof.
  pose (test := fun o : option (list (gmap string Double.value)) =>
                  match o with
                  | Some (r1 :: r2 :: _) => overlaps (exactRect r1) (exactRect r2)
                  | _ => false
                  end).
  assert (H : test (Double.calculateLayout
                      [Double.sizeOnly 47; Double.sizeOnly 75]
                      119 1864 1e-13) = true) by (vm_compute; reflexivity).
  destruct (Double.calculateLayout _ _ _ _) as [[|r1 [|r2 out]]|];
    try discriminate H.
  exists (r1 :: r2 :: out), r1, r2. repeat split. exact H.
Qed.

(** C4.  Whatever the width, the height and the padding, [calculateLayout]
    returns the empty sequence (and does not fail) when the list of items is
    empty or when the sizes add up to zero. *)
Theorem calculateLayout_degenerate items W H padding :
  items = [] \/ jeq (totalSize items) (Fin 0) = true ->
  calculateLayout items W H padding = Some [].
Proof.
  intros [-> | Hzero]; [done |].
  rewrite calculateLayout_cells, Hzero. by rewrite orb_true_r.
Qed.

(** The two instances of the specification: [layout([], 100, 100, 3)] and
    [layout([{size: 0}], 100, 100, 3)]. *)
Lemma calculateLayout_degenerate_witness :
  calculateLayout [] (Fin 100) (Fin 100) (Fin 3) = Some [] /\
  jeq (totalSize [sizeOnly 0]) (Fin 0) = true /\
  calculateLayout [sizeOnly 0] (Fin 100) (Fin 100) (Fin 3) = Some [].
Proof.
  split; [apply calculateLayout_degenerate; by left |].
  split; [vm_compute; reflexivity |].
  apply calculateLayout_degenerate. right. vm_compute. reflexivity.
Defined.

(** C5.  A single item of positive size in a rectangle of positive width and
    height gets exactly one rectangle: the whole rectangle inset by the
    padding, at [x = padding / 2], [y = padding / 2], of width
    [max(width - padding, 0)] and height [max(height - padding, 0)]. *)
Theorem calculateLayout_single (item : gmap string value) (s W H : Q) padding :
  size item = Fin s -> 0 < s -> 0 < W -> 0 < H ->
  exists r,
    calculateLayout [item] (Fin W) (Fin H) padding = Some [r] /\
    same (rect_x r) (padding / Fin 2)%num /\
    same (rect_y r) (padding / Fin 2)%num /\
    rect_width r = jmax (Fin W - padding)%num (Fin 0) /\
    rect_height r = jmax (Fin H - padding)%num (Fin 0).
Proof.
  intros Hs Hpos HW HH.
  rewrite calculateLayout_cells.
  unfold totalSize, normalizedItems. cbn [length Nat.eqb orb fold_left map].
  rewrite Hs. cbn [jadd jeq]. rewrite Qeq_bool_false by lra.
  cbn [sortItems foldr insertItem layoutCells zip_with].
  eexists. split; [reflexivity |]. unfold emit. cbn [cx cy cw ch].
  rewrite rect_x_placed, rect_y_placed, rect_width_placed, rect_height_placed.
  repeat split; apply same_zero_plus.
Qed.

(** The instance of the specification: [layout([{id: 'a', size: 5}], 200,
    100, 0)] is one rectangle with [x = 0], [y = 0], [width = 200] and
    [height = 100]. *)
Lemma calculateLayout_single_witness :
  exists r,
    calculateLayout [mkItem "a" 5] (Fin 200) (Fin 100) (Fin 0) = Some [r] /\
    rect_at r (Box 0 0 200 100).
Proof.
  destruct (calculateLayout_single (mkItem "a" 5) 5 200 100 (Fin 0))
    as (r & Hr & Hx & Hy & Hw & Hh);
    [vm_compute; reflexivity | reflexivity | reflexivity | reflexivity |].
  exists r. split; [exact Hr |].
  unfold rect_at. rewrite Hw, Hh. rewrite jdiv_two in Hx, Hy.
  destruct (rect_x r), (rect_y r); try contradiction.
  cbn [same bx by_ bw bh] in Hx, Hy |- *.
  assert (E : 0 / 2 == 0) by reflexivity. rewrite E in Hx, Hy.
  split; [exact Hx |]. split; [exact Hy |].
  split; vm_compute; reflexivity.
Defined.

(** C6.  Two items of weight 1 in a rectangle 200 wide and 100 high, with
    padding 0, get two squares of side 100, the first at [x = 0] and the
    second at [x = 100] (not two slices 200 wide and 50 high). *)
Theorem calculateLayout_two_equal :
  exists out,
    calculateLayout [sizeOnly 1; sizeOnly 1] (Fin 200) (Fin 100) (Fin 0)
    = Some out /\
    Forall2 rect_at out [Box 0 0 100 100; Box 100 0 100 100].
Proof.
  eexists. split; [apply calculateLayout_cells |].
  apply rects_atb_spec. vm_compute. reflexivity.
Qed.

(** C7.  [layoutSquarified] terminates on every input: a finalized row holds
    at least one item, so the items left for the recursive call are strictly
    fewer; a recursion depth equal to the number of items suffices (a depth
    of one for no item) and a larger bound gives the same result; and
    [calculateLayout] returns a result on every input. *)
Theorem layoutSquarified_terminates :
  (forall side items,
      items <> [] ->
      (1 <= length (growRow side items [] (Fin 0)).1)%nat /\
      (length (drop (length (growRow side items [] (Fin 0)).1) items)
       < length items)%nat) /\
  (forall fuel padding items x y width height layouts,
      (length items <= fuel)%nat -> (1 <= fuel)%nat ->
      exists out,
        layoutSquarified fuel padding items x y width height layouts = Some out /\
        forall fuel',
          (fuel <= fuel')%nat ->
          layoutSquarified fuel' padding items x y width height layouts
          = Some out) /\
  (forall items W H padding,
      exists out, calculateLayout items W H padding = Some out).
Proof.
  split; [|split].
  - intros side items Hne.
    destruct (growRow_first side items Hne) as (k & Hk & ->).
    rewrite length_drop, length_take.
    assert (length items <> 0)%nat by (by destruct items). lia.
  - intros fuel padding items x y width height layouts Hfuel Hpos.
    eexists. split; [by apply layoutSquarified_cells |].
    intros fuel' Hle.
    rewrite (layoutSquarified_fuel fuel' fuel) by lia.
    by apply layoutSquarified_cells.
  - apply calculateLayout_total.
Qed.

Lemma layoutSquarified_terminates_witness :
  (exists out,
      layoutSquarified 3 (Fin 3)
        [mkItem "a" 60; mkItem "b" 30; mkItem "c" 10]
        (Fin 0) (Fin 0) (Fin 300) (Fin 200) [] = Some out /\
      layoutSquarified 5 (Fin 3)
        [mkItem "a" 60; mkItem "b" 30; mkItem "c" 10]
        (Fin 0) (Fin 0) (Fin 300) (Fin 200) [] = Some out) /\
  (1 <= length (growRow (Fin 200)
                  [mkItem "a" 60; mkItem "b" 30; mkItem "c" 10] [] (Fin 0)).1)%nat.
Proof.
  split.
  - destruct (proj1 (proj2 layoutSquarified_terminates) 3%nat (Fin 3)
                [mkItem "a" 60; mkItem "b" 30; mkItem "c" 10]
                (Fin 0) (Fin 0) (Fin 300) (Fin 200) [])
      as (out & Hout & Hmore); [simpl; lia | lia |].
    exists out. split; [exact Hout | apply Hmore; lia].
  - apply (proj1 layoutSquarified_terminates). discriminate.
Defined.

(** C8, as the code has it.  On every input [calculateLayout] returns
    rectangles whose width and height are not negative: each is at least 0
    or is NaN. *)
Theorem calculateLayout_sides_not_negative items W H padding :
  exists out,
    calculateLayout items W H padding = Some out /\
    Forall (fun r => not_negative (rect_width r) /\
                     not_negative (rect_height r)) out.
Proof.
  eexists. split; [apply calculateLayout_cells |].
  destruct (_ || _); [constructor |].
  apply Forall_zip_with_emit. intros item c _ _. apply not_negative_emit.
Qed.

(** C8 as stated fails on a degenerate rectangle: two items in a rectangle
    of width 0 and height 0 (padding 0) come out with the width NaN, which
    is not at least 0. *)
Lemma calculateLayout_zero_rectangle_nan :
  exists out,
    calculateLayout [sizeOnly 1; sizeOnly 1] (Fin 0) (Fin 0) (Fin 0) = Some out /\
    ~ Forall sides_ge0 out.
Proof.
  eexists. split; [apply calculateLayout_cells |].
  rewrite <- (forallb_Forall _ _ _ sides_ge0b_spec).
  vm_compute. discriminate.
Qed.

(** C9, as the code has it.  With all sizes positive in a rectangle of
    positive width and height, the output has exactly one rectangle per
    item: it is, in order, the image of a permutation of the items, and each
    rectangle carries every property of its item that is not named
    [normalizedSize], [x], [y], [width] or [height], next to numbers for
    [x], [y], [width] and [height]. *)
Theorem calculateLayout_one_per_item items (W H : Q) padding :
  Forall pos_size items -> 0 < W -> 0 < H ->
  exists out items',
    calculateLayout items (Fin W) (Fin H) padding = Some out /\
    items' ≡ₚ items /\
    Forall2 carries items' out.
Proof.
  intros Hpos HW HH. rewrite calculateLayout_cells.
  destruct items as [|i0 items0] eqn:Eitems.
  { exists [], []. by repeat split. }
  rewrite <- Eitems in *.
  assert (Hne : items <> []) by (by rewrite Eitems).
  destruct (totalSize_pos items Hpos Hne) as (T & HT & _ & HTpos).
  rewrite HT. cbn [jeq]. rewrite Qeq_bool_false by lra.
  replace (length items =? 0)%nat with false by (by rewrite Eitems).
  cbn [orb].
  set (cells := layoutCells _ _ _ _ _ _).
  assert (Hcells : length cells = length items).
  { subst cells. rewrite layoutCells_length; rewrite normalizedItems_length; done. }
  clearbody cells. unfold normalizedItems in *. rewrite HT in *.
  destruct (Permutation_map_inv _ _
              (sortItems_perm (map (normalize (Fin T) (Fin W * Fin H)%num) items)))
    as (items' & Hmap & Hperm).
  rewrite Hmap. eexists _, items'. split; [reflexivity |].
  split; [by symmetry |].
  apply carries_zip. rewrite Hcells. by apply Permutation_length.
Qed.

Lemma calculateLayout_one_per_item_witness :
  exists out items',
    calculateLayout [mkItem "a" 60; mkItem "b" 30; mkItem "c" 10]
      (Fin 300) (Fin 200) (Fin 3) = Some out /\
    items' ≡ₚ [mkItem "a" 60; mkItem "b" 30; mkItem "c" 10] /\
    Forall2 carries items' out.
Proof.
  apply calculateLayout_one_per_item; [|reflexivity | reflexivity].
  repeat constructor; eexists; (split; [vm_compute; reflexivity | reflexivity]).
Defined.

(** C9 as stated fails: the [width] the caller attached to an item, as in
    [{id: 'a', size: 5, width: '80px'}], is replaced by the computed
    width. *)
Lemma calculateLayout_overwrites_width :
  exists out,
    calculateLayout [itemWithWidth] (Fin 200) (Fin 100) (Fin 0) = Some out /\
    ~ (exists items',
          items' ≡ₚ [itemWithWidth] /\ Forall2 carries_all items' out).
Proof.
  eexists. split; [apply calculateLayout_cells |].
  match goal with |- context [Forall2 carries_all _ ?o] => set (out := o) end.
  assert (Hnum : forallb (has_num "width") out = true)
    by (vm_compute; reflexivity).
  clearbody out. intros (items' & Hperm & Hall).
  apply Permutation_singleton_r in Hperm. subst items'.
  apply Forall2_cons_inv_l in Hall as (r & out' & Hcarry & _ & ->).
  assert (Hwidth : r !! "width" = Some (VStr "80px")).
  { apply Hcarry. vm_compute. reflexivity. }
  simpl in Hnum. apply andb_true_iff in Hnum as [Hnum _].
  unfold has_num in Hnum. rewrite Hwidth in Hnum. discriminate.
Qed.




(** In exact arithmetic too the order of the sizes is lost without a
    positive area: in a rectangle of width 0 all normalized sizes are 0,
    the sort keeps the input order, and the item of size 1 comes out before
    the item of size 2. *)
Example calculateLayout_zero_width_order :
  exists out,
    calculateLayout [sizeOnly 1; sizeOnly 2] (Fin 0) (Fin 10) (Fin 0) = Some out /\
    ~ size_descending out.
Proof.
  eexists. split; [apply calculateLayout_cells |].
  match goal with |- ~ size_descending ?o => set (out := o) end.
  assert (Hasc : starts_ascending out = true) by (vm_compute; reflexivity).
  clearbody out. intros Hdesc.
  destruct out as [|r0 [|r1 out]]; [discriminate | discriminate |].
  specialize (Hdesc 0%nat 1%nat r0 r1 ltac:(lia) eq_refl eq_refl).
  simpl in Hasc. rewrite Hdesc in Hasc. discriminate.
Qed.

(** * An example of the specification *)

(** The scenario of the specification: sizes 60, 30 and 10 in a rectangle
    300 by 200 with padding 0 get 180 by 200, 120 by 150 and 120 by 50, of
    areas 36000, 18000 and 6000, which tile the rectangle. *)
Example calculateLayout_scenario :
  exists out,
    calculateLayout [mkItem "1" 60; mkItem "2" 30; mkItem "3" 10]
      (Fin 300) (Fin 200) (Fin 0) = Some out /\
    Forall2 rect_at out
      [Box 0 0 180 200; Box 180 0 120 150; Box 180 150 120 50].
Proof.
  eexists. split; [apply calculateLayout_cells |].
  apply rects_atb_spec. vm_compute. reflexivity.
Qed.

(** * Further properties of the layout *)

(** The worst ratio of a row is the largest of the ratios of its items. *)
Lemma worst_fold (len : Q) :
  0 < len ->
  forall row (acc : Q),
    Forall pos_ns row ->
    exists q : Q,
      fold_left
        (fun worst item =>
           let itemSide := (normalizedSize item / Fin len)%num in
           let ratio := jmax (Fin len / itemSide)%num (itemSide / Fin len)%num in
           jmax worst ratio)
        row (Fin acc) = Fin q /\
      acc <= q /\ (row <> [] -> 1 <= q).
Proof.
  intros Hlen. induction row as [|item row IH]; intros acc Hrow.
  - exists acc. split; [done |]. split; [lra | done].
  - apply Forall_cons in Hrow as [Hitem Hrow].
    destruct (pos_ns_nsQ _ Hitem) as [Hns Ha].
    cbn [fold_left]. rewrite Hns.
    rewrite (jdiv_fin (nsQ item) len) by lra.
    pose proof (Qdiv_pos _ _ Ha Hlen) as Hside.
    rewrite (jdiv_fin len (nsQ item / len)) by lra.
    rewrite (jdiv_fin (nsQ item / len) len) by lra.
    set (s := nsQ item / len) in *.
    assert (Hone : 1 <= len / s \/ 1 <= s / len).
    { destruct (Qlt_le_dec s len) as [Hlt | Hle].
      - left. apply Qle_shift_div_l; lra.
      - right. apply Qle_shift_div_l; lra. }
    set (u := len / s) in *. set (v := s / len) in *.
    assert (Hratio : exists r : Q, jmax (Fin u) (Fin v) = Fin r /\ 1 <= r).
    { unfold jmax, jle. qbools; eexists; (split; [reflexivity | lra]). }
    destruct Hratio as (r & -> & Hr).
    assert (Hstep : exists w : Q,
               jmax (Fin acc) (Fin r) = Fin w /\ acc <= w /\ 1 <= w).
    { unfold jmax, jle. qbools; eexists; (split; [reflexivity | split; lra]). }
    destruct Hstep as (w & -> & Hw1 & Hw2).
    destruct (IH w Hrow) as (q & Hfold & Hq & _).
    exists q. split; [exact Hfold |]. split; [lra | intros _; lra].
Qed.

Lemma same_plus_l (q x : Q) (n : num) :
  q == x -> same (Fin q + n)%num (Fin x + n)%num.
Proof. intros E. destruct n as [| | |r]; simpl; [done | done | done | lra]. Qed.

Lemma same_trans a b c : same a b -> same b c -> same a c.
Proof.
  destruct a, b, c; simpl; try done. intros -> ->. reflexivity.
Qed.

(** The loop, step by step. *)
Lemma growRow_greedy side rest :
  forall row rowArea,
    row <> [] ->
    exists k : nat,
      (k <= length rest)%nat /\
      growRow side rest row rowArea
      = (row ++ take k rest,
         fold_left (fun acc item => (acc + normalizedSize item)%num)
           (take k rest) rowArea) /\
      (forall j item,
          (j < k)%nat -> rest !! j = Some item ->
          jle (worstRatio (row ++ take (S j) rest)
                 (fold_left (fun acc item => (acc + normalizedSize item)%num)
                    (take (S j) rest) rowArea) side)
              (worstRatio (row ++ take j rest)
                 (fold_left (fun acc item => (acc + normalizedSize item)%num)
                    (take j rest) rowArea) side) = true) /\
      (forall item,
          rest !! k = Some item ->
          jle (worstRatio (row ++ take (S k) rest)
                 (fold_left (fun acc item => (acc + normalizedSize item)%num)
                    (take (S k) rest) rowArea) side)
              (worstRatio (row ++ take k rest)
                 (fold_left (fun acc item => (acc + normalizedSize item)%num)
                    (take k rest) rowArea) side) = false).
Proof.
  induction rest as [|item rest IH]; intros row rowArea Hrow.
  - exists 0%nat. simpl. rewrite app_nil_r. repeat split; [lia | | done].
    intros j item Hj. lia.
  - cbn [growRow].
    destruct (Nat.eqb_spec (length row) 0) as [Hlen | Hlen].
    { destruct row; [done | discriminate]. }
    destruct (jle (worstRatio (row ++ [item]) (rowArea + normalizedSize item) side)
                (worstRatio row rowArea side)) eqn:Hle.
    + destruct (IH (row ++ [item]) (rowArea + normalizedSize item)%num)
        as (k & Hk & Heq & Hbefore & Hstop).
      { by destruct row. }
      exists (S k). split; [simpl; lia |]. split; [|split].
      * rewrite Heq, <- app_assoc. done.
      * intros j it Hj Hit. destruct j as [|j].
        -- cbn [take fold_left]. by rewrite app_nil_r.
        -- cbn [take fold_left]. simpl in Hit.
           specialize (Hbefore j it ltac:(lia) Hit).
           rewrite <- !app_assoc in Hbefore. exact Hbefore.
      * intros it Hit. simpl in Hit. specialize (Hstop it Hit).
        cbn [take fold_left]. rewrite <- !app_assoc in Hstop. exact Hstop.
    + exists 0%nat. split; [lia |]. split; [|split].
      * simpl. by rewrite app_nil_r.
      * intros j it Hj. lia.
      * intros it Hit. simpl in Hit. injection Hit as <-.
        cbn [take fold_left]. by rewrite app_nil_r.
Qed.


(** * Further properties of the code *)

(** X3.  On every input, whatever the sizes, the dimensions and the
    padding, [calculateLayout] returns; when the sizes add up to zero it
    returns no rectangle, and otherwise one rectangle for each item: the
    output is, in order, the image of a permutation of the items, each
    rectangle carrying the properties of its item that the layout does not
    write.  No item is dropped or repeated, even when sizes or dimensions
    are zero, negative or NaN. *)
Theorem calculateLayout_every_item items W H padding :
  exists out,
    calculateLayout items W H padding = Some out /\
    (jeq (totalSize items) (Fin 0) = true -> out = []) /\
    (jeq (totalSize items) (Fin 0) = false ->
     exists items', items' ≡ₚ items /\ Forall2 carries items' out).
Proof.
  destruct (jeq (totalSize items) (Fin 0)) eqn:Hzero.
  - exists []. split; [| by split].
    by rewrite calculateLayout_cells, Hzero, orb_true_r.
  - destruct (calculateLayout_carries items W H padding Hzero)
      as (out & items' & Hout & Hperm & Hall).
    exists out. split; [done |]. split; [done |].
    intros _. by exists items'.
Qed.

(** X4.  The worst ratio of a non-empty row of items with positive
    normalized sizes, for a positive area and a positive side, is a number
    that is at least 1, the ratio of a square: it is never NaN and never
    below 1 (in floating point it can be Infinity). *)
Theorem worstRatio_at_least_one row (area side : Q) :
  row <> [] -> Forall pos_ns row -> 0 < area -> 0 < side ->
  jge (worstRatio row (Fin area) (Fin side)) (Fin 1) = true.
Proof.
  intros Hne Hrow Harea Hside. unfold worstRatio.
  replace (length row =? 0)%nat with false by (by destruct row).
  rewrite jdiv_fin by lra.
  destruct (worst_fold (area / side) (Qdiv_pos _ _ Harea Hside) row 0 Hrow)
    as (q & Hq & _ & Hone).
  cbv zeta in Hq. cbv zeta. rewrite Hq.
  unfold jge. cbn [jle]. apply Qle_bool_iff. by apply Hone.
Qed.

Lemma worstRatio_at_least_one_witness :
  jge (worstRatio [normalize (Fin 2) (Fin 20000) (sizeOnly 1)]
         (Fin 20000) (Fin 100)) (Fin 1) = true.
Proof.
  apply worstRatio_at_least_one; [discriminate | | reflexivity | reflexivity].
  repeat constructor; eexists; (split; [vm_compute; reflexivity | reflexivity]).
Defined.

(** X5.  The row-growing loop of [layoutSquarified] is greedy.  The row it
    returns is a prefix of the items, and [rowArea] is the sum of its
    normalized sizes; each item after the first was added because the worst
    ratio with it was at most the worst ratio without it; and if an item is
    left over, the worst ratio with the first item left over is not at most
    the worst ratio of the row (it is larger, or one of the two is NaN). *)
Theorem growRow_stops_at_first_worse side item items :
  exists k : nat,
    (1 <= k <= length (item :: items))%nat /\
    growRow side (item :: items) [] (Fin 0)
    = (take k (item :: items), areaOf (take k (item :: items))) /\
    (forall j next,
        (1 <= j < k)%nat -> (item :: items) !! j = Some next ->
        jle (worstRatio (take (S j) (item :: items))
               (areaOf (take (S j) (item :: items))) side)
            (worstRatio (take j (item :: items))
               (areaOf (take j (item :: items))) side) = true) /\
    (forall next,
        (item :: items) !! k = Some next ->
        jle (worstRatio (take (S k) (item :: items))
               (areaOf (take (S k) (item :: items))) side)
            (worstRatio (take k (item :: items))
               (areaOf (take k (item :: items))) side) = false).
Proof.
  cbn [growRow length Nat.eqb app].
  destruct (growRow_greedy side items [item] (Fin 0 + normalizedSize item)%num)
    as (k & Hk & Heq & Hbefore & Hstop); [done |].
  exists (S k). split; [simpl; lia |]. split; [|split].
  - rewrite Heq. done.
  - intros j next [Hj1 Hj2] Hnext. destruct j as [|j]; [lia |].
    simpl in Hnext. exact (Hbefore j next ltac:(lia) Hnext).
  - intros next Hnext. simpl in Hnext. exact (Hstop next Hnext).
Qed.

Lemma growRow_stops_at_first_worse_witness :
  exists k : nat,
    (1 <= k <= 3)%nat /\
    (growRow (Fin 200)
       (normalizedItems [mkItem "a" 60; mkItem "b" 30; mkItem "c" 10]
          (Fin 300) (Fin 200)) [] (Fin 0)).1
    = take k (normalizedItems [mkItem "a" 60; mkItem "b" 30; mkItem "c" 10]
                (Fin 300) (Fin 200)).
Proof.
  destruct (normalizedItems [mkItem "a" 60; mkItem "b" 30; mkItem "c" 10]
              (Fin 300) (Fin 200)) as [|item items] eqn:E.
  { apply (f_equal length) in E. rewrite normalizedItems_length in E.
    discriminate. }
  assert (Hlen : length (item :: items) = 3%nat).
  { rewrite <- E. apply normalizedItems_length. }
  destruct (growRow_stops_at_first_worse (Fin 200) item items)
    as (k & Hk & Heq & _).
  exists k. split; [lia |]. by rewrite Heq.
Defined.

(** X6.  When the normalized sizes the code computes are finite numbers,
    the first rectangle of the output is at the top-left corner,
    [x = padding / 2] and [y = padding / 2], and belongs to an item of the
    largest normalized size. *)
Theorem calculateLayout_largest_first items W H padding :
  items <> [] -> Forall (finite_share items W H) items ->
  exists r out,
    calculateLayout items W H padding = Some (r :: out) /\
    same (rect_x r) (padding / Fin 2)%num /\
    same (rect_y r) (padding / Fin 2)%num /\
    Forall (fun r' => jge (normalizedSize r) (normalizedSize r') = true) out.
Proof.
  intros Hne Hfin.
  pose proof (normalizedItems_sorted items W H Hfin) as Hsorted.
  rewrite calculateLayout_cells, (finite_share_total items W H Hne Hfin).
  replace (length items =? 0)%nat with false by (by destruct items).
  cbn [orb].
  destruct (normalizedItems items W H) as [|a rest] eqn:E.
  { apply (f_equal length) in E. rewrite normalizedItems_length in E.
    by destruct items. }
  destruct (layoutCells_head (length items) a rest 0 0 W H)
    as (c & cells & -> & Hcx & Hcy).
  { rewrite <- E. by rewrite normalizedItems_length. }
  cbn [zip_with]. eexists _, _. split; [reflexivity |].
  unfold emit at 1 2 3. rewrite rect_x_placed, rect_y_placed, normalizedSize_placed.
  split; [|split].
  - destruct (cx c) as [| | |q]; try done.
    eapply same_trans; [by apply same_plus_l | apply same_zero_plus].
  - destruct (cy c) as [| | |q]; try done.
    eapply same_trans; [by apply same_plus_l | apply same_zero_plus].
  - apply StronglySorted_inv in Hsorted as [_ Hhead].
    apply Forall_forall. intros r' Hr'.
    apply list_elem_of_lookup in Hr' as [i Hi].
    apply lookup_zip_with_Some in Hi as (b & cb & -> & Hb & _).
    unfold emit. rewrite normalizedSize_placed.
    rewrite Forall_forall in Hhead. apply Hhead.
    by eapply list_elem_of_lookup_2.
Qed.

Lemma calculateLayout_largest_first_witness :
  exists r out,
    calculateLayout [mkItem "c" 10; mkItem "a" 60; mkItem "b" 30]
      (Fin 300) (Fin 200) (Fin 6) = Some (r :: out) /\
    same (rect_x r) (Fin 6 / Fin 2)%num /\
    same (rect_y r) (Fin 6 / Fin 2)%num /\
    Forall (fun r' => jge (normalizedSize r) (normalizedSize r') = true) out.
Proof.
  apply calculateLayout_largest_first; [discriminate |].
  repeat constructor; eexists; vm_compute; reflexivity.
Defined.

(** * Preferences and filtering: lemmas *)

Import Preferences.

(** ** Strings *)

Lemma startsWith_spec k s :
  startsWith k s = true <-> exists post, s = k +:+ post.
Proof.
  revert s. induction k as [|a k IH]; intros s; simpl.
  - split; [intros _; by exists s | done].
  - destruct s as [|b s].
    + split; [done | intros [post Hpost]; discriminate].
    + rewrite andb_true_iff, Ascii.eqb_eq, IH. split.
      * intros [-> [post ->]]. by exists post.
      * intros [post [= -> ->]]. split; [done | by exists post].
Qed.

Lemma includes_spec k s :
  includes k s = true <-> exists pre post, s = pre +:+ k +:+ post.
Proof.
  induction s as [|b s IH]; simpl.
  - rewrite orb_false_r, startsWith_spec. split.
    + intros [post Hpost]. by exists EmptyString, post.
    + intros [pre [post Hs]]. destruct pre; [by exists post | discriminate].
  - rewrite orb_true_iff, startsWith_spec, IH. split.
    + intros [[post Hpost] | [pre [post ->]]].
      * by exists EmptyString, post.
      * by exists (String b pre), post.
    + intros [pre [post Hs]]. destruct pre as [|c pre].
      * left. by exists post.
      * right. injection Hs as -> ->. by exists pre, post.
Qed.

Lemma includes_empty s : includes EmptyString s = true.
Proof. by destruct s. Qed.

Lemma inList_spec s l : inList s l = true <-> s ∈ l.
Proof.
  unfold inList. rewrite existsb_exists. split.
  - intros [x [Hx E]]. apply String.eqb_eq in E. subst x.
    by apply list_elem_of_In.
  - intros Hs. exists s. split; [by apply list_elem_of_In | apply String.eqb_refl].
Qed.

Lemma excludedBy_spec text ks :
  excludedBy text ks = true <-> exists k, k ∈ ks /\ includes k text = true.
Proof.
  induction ks as [|k ks IH]; simpl.
  - split; [done | intros [k [Hk _]]; by apply elem_of_nil in Hk].
  - destruct (includes k text) eqn:E.
    + split; [intros _; exists k; split; [left | done] | done].
    + rewrite IH. split.
      * intros [k' [Hk' E']]. exists k'. split; [by right | done].
      * intros [k' [Hk' E']]. apply elem_of_cons in Hk' as [-> | Hk'];
          [congruence | by exists k'].
Qed.

Lemma lower_char_not_upper c :
  (65 <=? nat_of_ascii (lower_char c))%nat
  && (nat_of_ascii (lower_char c) <=? 90)%nat = false.
Proof.
  destruct c as [[] [] [] [] [] [] [] []]; reflexivity.
Qed.

Lemma hasUpper_lower s : hasUpper (toLowerCase s) = false.
Proof.
  induction s as [|c s IH]; simpl; [done |].
  rewrite IH, orb_false_r. apply lower_char_not_upper.
Qed.

Lemma hasUpper_app s t : hasUpper (s +:+ t) = hasUpper s || hasUpper t.
Proof.
  induction s as [|c s IH]; simpl; [done |]. by rewrite IH, orb_assoc.
Qed.

Lemma includes_lower_no_upper k s :
  includes k (toLowerCase s) = true -> hasUpper k = false.
Proof.
  intros [pre [post E]]%includes_spec.
  pose proof (hasUpper_lower s) as H. rewrite E, !hasUpper_app in H.
  apply orb_false_iff in H as [_ H]. by apply orb_false_iff in H as [H _].
Qed.

(** ** Stored preferences *)

Lemma union_absorb (m d : gmap string bool) : (m ∪ d) ∪ d = m ∪ d.
Proof. by rewrite <- (assoc_L (∪)), (idemp_L (∪)). Qed.

Lemma union_covered (m d : gmap string bool) : dom d ⊆ dom m -> m ∪ d = m.
Proof.
  intros Hdom. apply map_eq. intros i. rewrite lookup_union.
  destruct (m !! i) as [b|] eqn:Hm; [by destruct (d !! i) |].
  destruct (d !! i) as [b|] eqn:Hd; [|done].
  assert (Hi : i ∈ dom m) by (apply Hdom, elem_of_dom; eauto).
  apply elem_of_dom in Hi as [b' Hb']. congruence.
Qed.

(** The platforms [getPreferences] returns cover those of the defaults. *)
Lemma getPreferences_platforms w :
  platforms (getPreferences w).2 ∪ platforms (defaults w)
  = platforms (getPreferences w).2.
Proof.
  unfold getPreferences. destruct (storage w) as [[|parsed]|]; simpl;
    [apply (idemp_L (∪)) | apply union_absorb | apply (idemp_L (∪))].
Qed.

Lemma getPreferences_saved p w :
  getPreferences (savePreferences p w)
  = (Merged false false,
     Prefs (filters p) (platforms p ∪ platforms (defaults w)) (suggestions p)).
Proof. by destruct p as [[] ? []]. Qed.

Lemma prefs_eta p : Prefs (filters p) (platforms p) (suggestions p) = p.
Proof. by destruct p. Qed.

Lemma inList_push s l : inList s (l ++ [s]) = true.
Proof. apply inList_spec, elem_of_app. right. by left. Qed.

Lemma filter_not_in (s : string) (l : list string) :
  s ∉ l -> List.filter (fun k => negb (String.eqb k s)) l = l.
Proof.
  induction l as [|a l IH]; intros Hs; simpl; [done |].
  apply not_elem_of_cons in Hs as [Hne Hs].
  destruct (String.eqb_spec a s) as [-> | _]; [done |]. simpl.
  by rewrite IH.
Qed.

Lemma filter_push (s : string) (l : list string) :
  s ∉ l -> List.filter (fun k => negb (String.eqb k s)) (l ++ [s]) = l.
Proof.
  intros Hs. rewrite List.filter_app, filter_not_in by done. simpl.
  rewrite String.eqb_refl. simpl. apply app_nil_r.
Qed.

(** ** The three checks of [matchesFilters] *)

Lemma categoryCheck_spec (s : suggestion) (f : filters_t) :
  (0 <? length (categories f))%nat && truthy (category s)
    && negb (inList (orEmpty (category s)) (categories f)) = false <->
  categoryPasses s f.
Proof.
  unfold categoryPasses.
  destruct (categories f) as [|c0 cs] eqn:Ecs; [simpl; tauto |].
  destruct (category s) as [[|a c]|];
    cbn [length Nat.ltb Nat.leb truthy orEmpty default andb]; unfold id;
    try tauto.
  destruct (inList (String a c) (c0 :: cs)) eqn:Ein; cbn [negb].
  - apply inList_spec in Ein. split; [|done]. intros _.
    right. right. right. by exists (String a c).
  - split; [done |]. intros [? | [? | [? | [c' [[= <-] Hc']]]]]; try done.
    apply inList_spec in Hc'. congruence.
Qed.

Lemma excludedBy_false text ks :
  excludedBy text ks = false <-> forall k, k ∈ ks -> ~ occursIn k text.
Proof.
  destruct (excludedBy text ks) eqn:E.
  - apply excludedBy_spec in E as [k [Hk Hin]].
    split; [done |]. intros Hall. exfalso.
    apply (Hall k Hk). by apply includes_spec.
  - split; [|done]. intros _ k Hk Hocc.
    assert (excludedBy text ks = true); [|congruence].
    apply excludedBy_spec. exists k. split; [done | by apply includes_spec].
Qed.

Lemma keywordCheck_spec text (ks : list string) :
  (if (0 <? length ks)%nat
   then if negb (existsb (fun keyword => includes keyword text) ks)
        then false else true
   else true) = true <->
  (ks = [] \/ exists k, k ∈ ks /\ occursIn k text).
Proof.
  destruct ks as [|k0 ks]; [simpl; tauto |].
  cbn [length Nat.ltb Nat.leb].
  destruct (existsb _ (k0 :: ks)) eqn:E; cbn [negb].
  - apply existsb_exists in E as [k [Hk Hin]].
    split; [|done]. intros _. right. exists k.
    split; [by apply list_elem_of_In | by apply includes_spec].
  - split; [done |]. intros [? | [k [Hk Hocc]]]; [done |].
    assert (existsb (fun keyword => includes keyword text) (k0 :: ks) = true);
      [|congruence].
    apply existsb_exists. exists k.
    split; [by apply list_elem_of_In | by apply includes_spec].
Qed.

Lemma matchesFilters_excluded (s : suggestion) (f : filters_t) :
  excludedBy (searchText s) (excludeKeywords f) = true ->
  matchesFilters s f = false.
Proof. intros E. unfold matchesFilters. rewrite E. by destruct (_ && _). Qed.

Lemma excludedBy_cons_upper text k ks :
  hasUpper k = true ->
  excludedBy (toLowerCase text) (k :: ks) = excludedBy (toLowerCase text) ks.
Proof.
  intros Hk. simpl. destruct (includes k (toLowerCase text)) eqn:E; [|done].
  apply includes_lower_no_upper in E. congruence.
Qed.

(** ** The calls on stored preferences *)

Lemma getPreferences_unusable w :
  (forall j, storage w <> Some (Json j)) ->
  getPreferences w = (TheDefaults, defaults w).
Proof.
  intros Hw. unfold getPreferences.
  destruct (storage w) as [[|j]|]; [done | by destruct (Hw j) | done].
Qed.


(** * Preferences and filtering: properties *)

(** X7.  [matchesFilters] accepts a suggestion exactly when it passes the
    category filter (there is none, or the suggestion has no category, or
    its category is listed), no exclude keyword occurs in its lower-cased
    title, description and artist, and, if there are keywords, one of them
    occurs there. *)
Theorem matchesFilters_spec (s : suggestion) (f : filters_t) :
  matchesFilters s f = true <->
  categoryPasses s f /\
  (forall k, k ∈ excludeKeywords f -> ~ occursIn k (searchText s)) /\
  (keywords f = [] \/ exists k, k ∈ keywords f /\ occursIn k (searchText s)).
Proof.
  rewrite <- categoryCheck_spec, <- excludedBy_false, <- keywordCheck_spec.
  unfold matchesFilters.
  destruct ((0 <? length (categories f))%nat && truthy (category s)
            && negb (inList (orEmpty (category s)) (categories f)));
    [split; [done | by intros [? _]] |].
  destruct (excludedBy (searchText s) (excludeKeywords f));
    [split; [done | by intros (_ & ? & _)] |].
  split; [by intros ? | by intros (_ & _ & ?)].
Qed.

(** X8.  An exclude keyword that is the empty string rejects every
    suggestion, whatever the other filters: the empty string occurs in
    every text. *)
Theorem matchesFilters_empty_exclude (s : suggestion) (f : filters_t) :
  EmptyString ∈ excludeKeywords f -> matchesFilters s f = false.
Proof.
  intros Hin. apply matchesFilters_excluded, excludedBy_spec.
  exists EmptyString. split; [done | apply includes_empty].
Qed.

Lemma matchesFilters_empty_exclude_witness :
  matchesFilters (Suggestion (Some "Saturn") None (Some "SZA") (Some "sounds"))
    (Filters [] [] ["remix"; ""]) = false.
Proof.
  apply matchesFilters_empty_exclude. right. left.
Defined.

(** X9.  The text is lower-cased, the keywords are not: a keyword that
    contains a capital letter occurs in no text.  As an exclude keyword it
    changes nothing, and as the only keyword it rejects every suggestion. *)
Theorem matchesFilters_capital_keyword (s : suggestion) (k : string)
    (cs ks ex : list string) :
  hasUpper k = true ->
  matchesFilters s (Filters cs ks (k :: ex)) = matchesFilters s (Filters cs ks ex) /\
  matchesFilters s (Filters cs [k] ex) = false.
Proof.
  intros Hk. unfold matchesFilters. cbn [categories keywords excludeKeywords].
  unfold searchText. rewrite excludedBy_cons_upper by done.
  split; [done |].
  cbn [length Nat.ltb Nat.leb existsb].
  destruct (includes k (toLowerCase _)) eqn:E.
  { apply includes_lower_no_upper in E. congruence. }
  cbn [orb negb].
  repeat match goal with
    | |- context [if ?b then _ else _] => destruct b
    end; reflexivity.
Qed.

Lemma matchesFilters_capital_keyword_witness :
  matchesFilters (Suggestion (Some "Pop hits") None None None)
    (Filters [] [] ["Pop"])
  = matchesFilters (Suggestion (Some "Pop hits") None None None)
      (Filters [] [] []) /\
  matchesFilters (Suggestion (Some "Pop hits") None None None)
    (Filters [] ["Pop"] []) = false.
Proof. apply matchesFilters_capital_keyword. reflexivity. Defined.

(** X10.  What [savePreferences] stores is what [getPreferences] returns
    next, in fresh objects, except that the platforms of the defaults that
    the saved object lacks are added: the saved object itself comes back
    when it has every platform of the defaults. *)
Theorem getPreferences_savePreferences p w :
  getPreferences (savePreferences p w)
  = (Merged false false,
     set_platforms (platforms p ∪ platforms (defaults w)) p) /\
  (dom (platforms (defaults w)) ⊆ dom (platforms p) ->
   (getPreferences (savePreferences p w)).2 = p).
Proof.
  rewrite getPreferences_saved. split; [done |].
  intros Hdom. cbn [snd]. rewrite union_covered by done. apply prefs_eta.
Qed.

Lemma getPreferences_savePreferences_witness :
  (getPreferences
     (savePreferences
        (set_filters (Filters ["sounds"] ["pop"] []) DEFAULT_PREFERENCES)
        freshWorld)).2
  = set_filters (Filters ["sounds"] ["pop"] []) DEFAULT_PREFERENCES.
Proof.
  apply (proj2 (getPreferences_savePreferences
                  (set_filters (Filters ["sounds"] ["pop"] []) DEFAULT_PREFERENCES)
                  freshWorld)).
  reflexivity.
Defined.

(** X11.  [addKeyword] is idempotent: adding the same keyword again changes
    neither the state nor the preferences returned. *)
Theorem addKeyword_idempotent keyword w :
  addKeyword keyword (addKeyword keyword w).1 = addKeyword keyword w.
Proof.
  unfold addKeyword at 2 3.
  destruct (getPreferences w) as [o prefs] eqn:Eget.
  destruct (inList (toLowerCase keyword) (keywords (filters prefs))) eqn:Ein;
    cbn [negb fst].
  { unfold addKeyword. by rewrite Eget, Ein. }
  unfold addKeyword. rewrite getPreferences_saved.
  cbn [set_filters set_keywords filters keywords platforms suggestions
       categories excludeKeywords].
  rewrite inList_push. cbn [negb].
  assert (Hplat : platforms prefs ∪ platforms (defaults w) = platforms prefs).
  { pose proof (getPreferences_platforms w) as H. by rewrite Eget in H. }
  destruct (keywordsShared o); cbn [defaults set_defaults set_filters platforms];
    by rewrite Hplat.
Qed.

(** X12.  [DEFAULT_PREFERENCES] is returned by [getPreferences] as it is, not
    as a copy, when nothing usable is stored, and [addKeyword] pushes into
    its list of keywords: [resetPreferences] then stores and returns
    defaults that have the added keyword. *)
Theorem resetPreferences_after_addKeyword keyword w :
  (forall j, storage w <> Some (Json j)) ->
  inList (toLowerCase keyword) (keywords (filters (defaults w))) = false ->
  keywords (filters (resetPreferences (addKeyword keyword w).1).2)
  = keywords (filters (defaults w)) ++ [toLowerCase keyword] /\
  (getPreferences (resetPreferences (addKeyword keyword w).1).1).2
  = (resetPreferences (addKeyword keyword w).1).2.
Proof.
  intros Hw Hnew. unfold addKeyword.
  rewrite (getPreferences_unusable w Hw), Hnew. cbn [negb keywordsShared fst].
  unfold resetPreferences. cbn [snd fst]. split; [done |].
  rewrite getPreferences_saved. cbn [snd defaults savePreferences set_defaults].
  rewrite (idemp_L (∪)). apply prefs_eta.
Qed.

Lemma resetPreferences_after_addKeyword_witness :
  keywords (filters (resetPreferences (addKeyword "Pop" freshWorld).1).2)
  = ["pop"].
Proof.
  apply (proj1 (resetPreferences_after_addKeyword "Pop" freshWorld
                  ltac:(discriminate) eq_refl)).
Defined.



(** X14.  [removeKeyword] undoes [addKeyword]: for a keyword that was not
    among the keywords, adding it and removing it gives back the list of
    keywords as it was, whatever the case of the letters in the two
    calls' argument. *)
Theorem removeKeyword_addKeyword keyword w :
  toLowerCase keyword ∉ keywords (filters (getPreferences w).2) ->
  keywords (filters (removeKeyword keyword (addKeyword keyword w).1).2)
  = keywords (filters (getPreferences w).2).
Proof.
  intros Hnew. unfold addKeyword.
  destruct (getPreferences w) as [o prefs] eqn:Eget. cbn [snd] in *.
  assert (Ein : inList (toLowerCase keyword) (keywords (filters prefs)) = false).
  { destruct (inList _ _) eqn:E; [|done]. by apply inList_spec in E. }
  rewrite Ein. cbn [negb fst]. unfold removeKeyword.
  rewrite getPreferences_saved.
  cbn [snd set_filters set_keywords filters keywords].
  by apply filter_push.
Qed.

Lemma removeKeyword_addKeyword_witness :
  keywords (filters (removeKeyword "POP" (addKeyword "POP" freshWorld).1).2)
  = [].
Proof.
  apply (removeKeyword_addKeyword "POP" freshWorld). apply not_elem_of_nil.
Defined.

(** X15.  [togglePlatform] never adds a platform: for a name that no object
    inherits from [Object.prototype], the returned preferences have the
    platforms they had; the named one, if it is among them, has the given
    value and the others keep theirs; and for a name that is not among
    them nothing is stored. *)
Theorem togglePlatform_known_only protoKeys platform enabled w :
  platform ∉ protoKeys ->
  dom (platforms (togglePlatform protoKeys platform enabled w).2)
  = dom (platforms (getPreferences w).2) /\
  (platform ∈ dom (platforms (getPreferences w).2) ->
   platforms (togglePlatform protoKeys platform enabled w).2 !! platform
   = Some enabled) /\
  (forall other,
      other <> platform ->
      platforms (togglePlatform protoKeys platform enabled w).2 !! other
      = platforms (getPreferences w).2 !! other) /\
  (platform ∉ dom (platforms (getPreferences w).2) ->
   togglePlatform protoKeys platform enabled w = (w, (getPreferences w).2)).
Proof.
  intros Hproto. unfold togglePlatform, hasProperty.
  destruct (getPreferences w) as [o prefs]. cbn [snd].
  rewrite (bool_decide_eq_false_2 (platform ∈ protoKeys)) by done.
  rewrite orb_false_r.
  unfold assignProperty.
  destruct (bool_decide_reflect (platform ∈ dom (platforms prefs))) as [Hin | Hout];
    cbn [orb snd set_platforms platforms].
  - split; [|split; [|split]].
    + rewrite dom_insert_L. apply subseteq_union_1_L.
      by apply singleton_subseteq_l.
    + intros _. apply lookup_insert_eq.
    + intros other Hne. by rewrite lookup_insert_ne.
    + done.
  - by repeat split.
Qed.

Lemma togglePlatform_known_only_witness :
  togglePlatform {["toString"; "constructor"]} "myspace" true freshWorld
  = (freshWorld, DEFAULT_PREFERENCES).
Proof.
  apply (togglePlatform_known_only {["toString"; "constructor"]} "myspace" true
           freshWorld); vm_compute; intros H; discriminate H.
Defined.

(** X16.  [updatePreferences] merges one level deep and saves: a list of
    filters or a platform that the update names takes the value of the
    update, one that it does not name keeps its value, also when the
    update has other filters or platforms; and [getPreferences] then
    returns the preferences that [updatePreferences] returned. *)
Theorem updatePreferences_merges updates w :
  (forall ks,
      j_filters updates ≫= j_keywords = Some ks ->
      keywords (filters (updatePreferences updates w).2) = ks) /\
  (j_filters updates ≫= j_keywords = None ->
   keywords (filters (updatePreferences updates w).2)
   = keywords (filters (getPreferences w).2)) /\
  (j_filters updates ≫= j_categories = None ->
   categories (filters (updatePreferences updates w).2)
   = categories (filters (getPreferences w).2)) /\
  (j_filters updates ≫= j_excludeKeywords = None ->
   excludeKeywords (filters (updatePreferences updates w).2)
   = excludeKeywords (filters (getPreferences w).2)) /\
  (forall name enabled,
      default ∅ (j_platforms updates) !! name = Some enabled ->
      platforms (updatePreferences updates w).2 !! name = Some enabled) /\
  (forall name,
      default ∅ (j_platforms updates) !! name = None ->
      platforms (updatePreferences updates w).2 !! name
      = platforms (getPreferences w).2 !! name) /\
  (getPreferences (updatePreferences updates w).1).2
  = (updatePreferences updates w).2.
Proof.
  unfold updatePreferences. cbn [fst snd filters platforms].
  unfold mergeFilters. cbn [keywords categories excludeKeywords].
  split; [by intros ks -> |]. split; [by intros -> |].
  split; [by intros -> |]. split; [by intros -> |].
  split; [| split].
  - intros name enabled Hname. unfold mergePlatforms.
    by apply lookup_union_Some_l.
  - intros name Hname. unfold mergePlatforms.
    rewrite lookup_union, Hname.
    by destruct (platforms (getPreferences w).2 !! name).
  - rewrite getPreferences_saved. cbn [snd filters platforms suggestions].
    f_equal. unfold mergePlatforms.
    rewrite <- (assoc_L (∪)). f_equal. apply getPreferences_platforms.
Qed.

(** X17.  After [addExcludeKeyword], [matchesFilters] on the stored
    preferences rejects every suggestion in whose text the lower-cased
    keyword occurs. *)
Theorem addExcludeKeyword_rejects keyword w (s : suggestion) :
  occursIn (toLowerCase keyword) (searchText s) ->
  matchesStored s (addExcludeKeyword keyword w).1 = false.
Proof.
  intros Hocc. unfold matchesStored. apply matchesFilters_excluded.
  apply excludedBy_spec. exists (toLowerCase keyword).
  split; [|by apply includes_spec].
  unfold addExcludeKeyword.
  destruct (getPreferences w) as [o prefs] eqn:Eget.
  destruct (inList (toLowerCase keyword) (excludeKeywords (filters prefs))) eqn:Ein;
    cbn [negb fst].
  - rewrite Eget. cbn [snd]. by apply inList_spec.
  - rewrite getPreferences_saved.
    cbn [snd filters set_filters set_excludeKeywords excludeKeywords].
    apply elem_of_app. right. by left.
Qed.

Lemma addExcludeKeyword_rejects_witness :
  matchesStored (Suggestion (Some "Saturn (Remix)") None (Some "SZA") None)
    (addExcludeKeyword "REMIX" freshWorld).1 = false.
Proof.
  apply addExcludeKeyword_rejects.
  exists "saturn (", ")  sza". reflexivity.
Defined.

(** * The colour of a block *)

Import Colors.

Lemma round_between (lo hi : Z) (q : Q) :
  inject_Z lo <= q -> q <= inject_Z hi ->
  (lo <= Qfloor (q + (1 # 2)) <= hi)%Z.
Proof.
  intros Hlo Hhi. split.
  - rewrite <- (Qfloor_Z lo). apply Qfloor_resp_le. lra.
  - pose proof (Qfloor_le (q + (1 # 2))) as Hfl.
    assert (H : inject_Z (Qfloor (q + (1 # 2))) < inject_Z (hi + 1)).
    { rewrite inject_Z_plus. change (inject_Z 1) with 1. lra. }
    rewrite <- Zlt_Qlt in H. lia.
Qed.

(** The intensity of a change that is a number lies between 0 and 1. *)
Lemma intensity_range (change : num) :
  change <> NaN ->
  exists i : Q,
    jmin (jabs change / Fin 200)%num (Fin 1) = Fin i /\ 0 <= i <= 1 /\
    (jle (Fin 200) (jabs change) = true -> i == 1).
Proof.
  intros Hnan. destruct change as [| | | q]; [done | | |].
  - exists 1. split; [reflexivity |]. split; [lra | done].
  - exists 1. split; [reflexivity |]. split; [lra | done].
  - cbn [jabs]. rewrite (jdiv_fin (Qabs q) 200) by lra.
    pose proof (Qabs_nonneg q) as Habs.
    unfold jmin, jle. cbn [jle].
    destruct (Qle_bool (Qabs q / 200) 1) eqn:E.
    + apply Qle_bool_iff in E. exists (Qabs q / 200).
      split; [done |]. split.
      * split; [apply Qdiv_nonneg; lra | done].
      * intros H. apply Qle_bool_iff in H.
        assert (1 <= Qabs q / 200) by (apply Qle_shift_div_l; lra). lra.
    + exists 1. split; [done |]. split; [lra | done].
Qed.

Lemma jround_affine (a b : Z) (i : Q) :
  0 <= i <= 1 -> (0 <= b)%Z ->
  exists z : Z,
    jround (Fin (inject_Z a) + Fin (inject_Z b) * Fin i)%num = RInt z /\
    (a <= z <= a + b)%Z /\ (i == 1 -> z = (a + b)%Z).
Proof.
  intros Hi Hb. cbn [jmul jadd jround]. eexists. split; [reflexivity |].
  assert (Hb' : 0 <= inject_Z b).
  { change 0 with (inject_Z 0). by rewrite <- Zle_Qle. }
  split.
  - apply round_between; [nra |]. rewrite inject_Z_plus. nra.
  - intros Hone.
    assert (E : inject_Z a + inject_Z b * i + (1 # 2)
                == inject_Z (a + b) + (1 # 2)).
    { rewrite inject_Z_plus, Hone. ring. }
    rewrite E.
    pose proof (round_between (a + b) (a + b) (inject_Z (a + b))) as H.
    specialize (H ltac:(lra) ltac:(lra)). lia.
Qed.

(** * The sections of the heatmap *)

Import Heatmap.

Lemma same_refl (a : num) : same a a.
Proof. destruct a; cbn; [done | done | done | reflexivity]. Qed.

Lemma trendsOf_snoc_eq t l :
  trendsOf (keyOf (categoryOf t)) (l ++ [t])
  = trendsOf (keyOf (categoryOf t)) l ++ [t].
Proof. unfold trendsOf. rewrite List.filter_app. cbn. by rewrite String.eqb_refl. Qed.

Lemma trendsOf_snoc_ne k t l :
  k <> keyOf (categoryOf t) -> trendsOf k (l ++ [t]) = trendsOf k l.
Proof.
  intros Hne. unfold trendsOf. rewrite List.filter_app. cbn.
  destruct (String.eqb_spec (keyOf (categoryOf t)) k); [congruence |].
  by rewrite app_nil_r.
Qed.

Lemma trendsOf_elem k t trends :
  t ∈ trendsOf k trends <-> t ∈ trends /\ keyOf (categoryOf t) = k.
Proof.
  unfold trendsOf. rewrite !list_elem_of_In, List.filter_In.
  by rewrite String.eqb_eq.
Qed.

(** [grouped] holds, for each name, the trends of that category. *)
Lemma groupTrends_ok inherited trends :
  Forall (groupable inherited) trends ->
  exists g,
    groupTrends inherited trends = Some g /\
    forall k, g !! k = nonempty (trendsOf k trends).
Proof.
  induction trends as [|t l IH] using rev_ind; intros Hl.
  { exists ∅. split; [done |]. intros k. by rewrite lookup_empty. }
  apply Forall_app in Hl as [Hl Ht]. apply Forall_inv in Ht.
  destruct (IH Hl) as (g & Hg & Hspec).
  unfold groupTrends in *. rewrite fold_left_app, Hg. cbn [fold_left groupStep].
  set (k0 := keyOf (categoryOf t)).
  assert (Hk : forall k,
             <[k0 := trendsOf k0 l ++ [t]]> g !! k
             = nonempty (trendsOf k (l ++ [t]))).
  { intros k. destruct (decide (k = k0)) as [-> | Hne].
    - rewrite lookup_insert_eq. unfold k0. rewrite trendsOf_snoc_eq.
      by destruct (trendsOf _ l).
    - rewrite lookup_insert_ne by done.
      by rewrite trendsOf_snoc_ne, Hspec. }
  rewrite (Hspec k0). destruct (trendsOf k0 l) as [|t0 l0] eqn:E; cbn [nonempty].
  - rewrite bool_decide_eq_false_2 by done.
    eexists. split; [reflexivity |]. intros k. rewrite <- Hk. reflexivity.
  - eexists. split; [reflexivity |]. intros k. rewrite <- Hk. reflexivity.
Qed.

Lemma groupStep_None inherited l : fold_left (groupStep inherited) l None = None.
Proof. by induction l. Qed.

(** A trend whose category has an inherited name stops the grouping. *)
Lemma groupTrends_throws inherited l :
  forall g,
    (forall k, is_Some (g !! k) -> k ∉ dom inherited) ->
    Exists (fun t => keyOf (categoryOf t) ∈ dom inherited) l ->
    fold_left (groupStep inherited) l (Some g) = None.
Proof.
  induction l as [|t l IH]; intros g Hg Hex; [by inversion Hex |].
  cbn [fold_left groupStep].
  set (k0 := keyOf (categoryOf t)).
  assert (Hins : forall v k,
             k0 ∉ dom inherited ->
             is_Some (<[k0 := v]> g !! k) -> k ∉ dom inherited).
  { intros v k Hk0 Hk. apply lookup_insert_is_Some in Hk as [<- | [_ Hk]];
      [done | by apply Hg]. }
  destruct (g !! k0) as [l0|] eqn:E.
  - assert (Hk0 : k0 ∉ dom inherited) by (apply Hg; by rewrite E).
    apply IH; [intros k Hk; by eapply (Hins _ k Hk0), Hk |].
    apply Exists_cons in Hex as [Hbad | Hex]; [| done].
    done.
  - destruct (bool_decide_reflect (k0 ∈ dom inherited)) as [Hin | Hout].
    + apply groupStep_None.
    + apply IH; [intros k Hk; by eapply (Hins _ k Hout), Hk |].
      apply Exists_cons in Hex as [Hbad | Hex]; [| done].
      done.
Qed.

Lemma insertCategory_perm a l : insertCategory a l ≡ₚ a :: l.
Proof.
  induction l as [|b l IH]; cbn [insertCategory]; [reflexivity |].
  destruct (jgt (compareOrder a b) (Fin 0)); [| reflexivity].
  rewrite IH. apply Permutation_swap.
Qed.

Lemma sortCategories_perm l : sortCategories l ≡ₚ l.
Proof.
  induction l as [|a l IH]; cbn [sortCategories foldr]; [reflexivity |].
  rewrite insertCategory_perm. by constructor.
Qed.

Lemma sectionStep_None g T C l : fold_left (sectionStep g T C) l None = None.
Proof. by induction l. Qed.

(** A category whose [id] names no array of [grouped] stops the sections. *)
Lemma sections_fold_None g T C l :
  Exists (fun cat => g !! id cat = None) l ->
  forall st, fold_left (sectionStep g T C) l st = None.
Proof.
  induction 1 as [cat l Hcat | cat l _ IH]; intros st; cbn [fold_left].
  - unfold sectionStep at 2. destruct st as [[??]|]; rewrite ?Hcat;
      apply sectionStep_None.
  - apply IH.
Qed.

(** The sections of categories that all name an array of [grouped]. *)
Lemma sections_fold_Some g T C l :
  Forall (fun cat => is_Some (g !! id cat)) l ->
  forall currentY acc,
    exists bottom secs,
      fold_left (sectionStep g T C) l (Some (currentY, acc))
      = Some (bottom, acc ++ secs) /\
      map category secs = l /\
      Forall (fun s =>
                g !! id (category s) = Some (items s) /\
                height s = (totalSize (items s) / T * C)%num) secs /\
      stacked currentY secs bottom.
Proof.
  induction 1 as [|cat l [catItems Hcat] _ IH]; intros currentY acc.
  - exists currentY, []. rewrite app_nil_r. repeat split; [constructor |].
    apply same_refl.
  - cbn [fold_left sectionStep]. rewrite Hcat.
    edestruct IH as (bottom & secs & -> & Hmap & Hsecs & Hst).
    eexists bottom, (_ :: secs). rewrite <- app_assoc. cbn [app].
    split; [reflexivity |]. split; [by cbn; rewrite Hmap |].
    split; [by constructor |]. by split.
Qed.

Lemma sorted_elem (p : category_t -> bool) cats cat :
  cat ∈ sortCategories (List.filter p cats) <-> cat ∈ cats /\ p cat = true.
Proof.
  rewrite sortCategories_perm, list_elem_of_In, List.filter_In.
  by rewrite <- list_elem_of_In.
Qed.

(** The sections, when no name is inherited where an array is needed: one
    for each category that is shown, with the trends of that category. *)
Lemma sections_shape inherited trends categories format :
  Forall (groupable inherited) trends ->
  Forall (fun cat => ~ shadowed inherited cat) categories ->
  exists g bottom secs,
    (forall k, g !! k = nonempty (trendsOf k trends)) /\
    sections inherited trends categories format = Some secs /\
    map category secs
    = sortCategories (List.filter (shown inherited g) categories) /\
    Forall (fun s =>
              items s = trendsOf (id (category s)) trends /\
              items s <> [] /\
              notDisabled (category s) = true /\
              height s
              = (totalSize (items s)
                 / totalSize (List.filter (isEnabled categories) trends)
                 * contentHeight inherited format)%num) secs /\
    stacked (headerHeight format) secs bottom.
Proof.
  intros Htrends Hcats.
  destruct (groupTrends_ok inherited trends Htrends) as (g & Hg & Hspec).
  set (sorted := sortCategories (List.filter (shown inherited g) categories)).
  assert (Hsome : Forall (fun cat => is_Some (g !! id cat)) sorted).
  { apply Forall_forall. intros cat Hcat.
    apply sorted_elem in Hcat as [Hin Hshown].
    rewrite Forall_forall in Hcats. specialize (Hcats cat Hin).
    unfold shown in Hshown. apply andb_true_iff in Hshown as [Hen Hgr].
    destruct (g !! id cat) as [l|]; [by eexists |].
    destruct Hcats. split; [done |].
    by destruct (inherited !! id cat) as [[]|]. }
  destruct (sections_fold_Some g
              (totalSize (List.filter (isEnabled categories) trends))
              (contentHeight inherited format) sorted Hsome
              (headerHeight format) [])
    as (bottom & secs & Hfold & Hmap & Hsecs & Hst).
  exists g, bottom, secs. split; [done |]. split.
  { unfold sections. rewrite Hg. fold sorted. by rewrite Hfold. }
  split; [done |]. split; [| done].
  apply Forall_forall. intros s Hs.
  rewrite Forall_forall in Hsecs. destruct (Hsecs s Hs) as [Hitems Hheight].
  assert (Hcat : category s ∈ sorted).
  { rewrite <- Hmap. by apply (list_elem_of_fmap_2 category). }
  apply sorted_elem in Hcat as [_ Hshown].
  apply andb_true_iff in Hshown as [Hen _].
  rewrite Hspec in Hitems.
  destruct (trendsOf (id (category s)) trends) as [|t l] eqn:E;
    [discriminate Hitems |].
  injection Hitems as Hitems.
  repeat split; [done | by rewrite <- Hitems | done | done].
Qed.

(** A trend whose category has an inherited name: no sections. *)
Lemma sections_None_trend inherited trends categories format :
  Exists (fun t => keyOf (categoryOf t) ∈ dom inherited) trends ->
  sections inherited trends categories format = None.
Proof.
  intros Hbad. unfold sections, groupTrends.
  rewrite (groupTrends_throws inherited trends ∅); [done | | done].
  intros k [v Hk]. by rewrite lookup_empty in Hk.
Qed.

(** A category that is shown for an inherited value: no sections. *)
Lemma sections_None_category inherited trends categories format :
  Forall (groupable inherited) trends ->
  Exists (shadowed inherited) categories ->
  sections inherited trends categories format = None.
Proof.
  intros Htrends Hsh.
  destruct (groupTrends_ok inherited trends Htrends) as (g & Hg & Hspec).
  unfold sections. rewrite Hg.
  rewrite sections_fold_None; [done |].
  apply Exists_exists in Hsh as (cat & Hin & Hen & Hlen).
  assert (Hnone : g !! id cat = None).
  { rewrite Hspec. destruct (trendsOf (id cat) trends) as [|t l] eqn:E; [done |].
    assert (Ht : t ∈ trendsOf (id cat) trends) by (rewrite E; left).
    apply trendsOf_elem in Ht as [Ht Hkey].
    rewrite Forall_forall in Htrends. destruct (Htrends t Ht).
    rewrite Hkey. by apply elem_of_dom. }
  apply Exists_exists. exists cat. split; [| done].
  apply sorted_elem. split; [done |].
  unfold shown. by rewrite Hen, Hnone, Hlen.
Qed.

Lemma NoDup_id_filter (p : category_t -> bool) cats :
  NoDup (map id cats) -> NoDup (map id (List.filter p cats)).
Proof.
  induction cats as [|a cs IH]; cbn [map List.filter]; [done |].
  intros Hnd. apply NoDup_cons in Hnd as [Ha Hnd].
  destruct (p a); cbn [map]; [| by apply IH].
  apply NoDup_cons. split; [| by apply IH].
  intros Hin. apply Ha.
  apply (list_elem_of_fmap_1 id) in Hin as (c & -> & Hc).
  apply list_elem_of_In, List.filter_In in Hc as [Hc _].
  by apply (list_elem_of_fmap_2 id), list_elem_of_In.
Qed.

(** The category has a finite [order]. *)
Lemma insertCategory_sorted a l :
  (exists q, order a = Fin q) ->
  Forall (fun cat => exists q, order cat = Fin q) l ->
  StronglySorted (fun c d => jle (order c) (order d) = true) l ->
  StronglySorted (fun c d => jle (order c) (order d) = true) (insertCategory a l).
Proof.
  intros [qa Ha] Hl Hsorted.
  induction Hsorted as [|b l Hsorted IH Hb]; cbn [insertCategory].
  - by repeat constructor.
  - apply Forall_cons in Hl as [[qb Hqb] Hl].
    unfold jgt, compareOrder. rewrite Ha, Hqb. cbn [jsub jneg jadd jlt].
    destruct (Qle_bool (qa + - qb) 0) eqn:E; cbn [negb].
    + apply Qle_bool_iff in E.
      assert (Hab : jle (order a) (order b) = true).
      { rewrite Ha, Hqb. cbn. apply Qle_bool_iff. lra. }
      constructor; [by constructor |].
      constructor; [done |].
      rewrite Forall_forall in Hb, Hl. apply Forall_forall. intros c Hc.
      specialize (Hb c Hc). destruct (Hl c Hc) as [qc Hqc].
      rewrite Ha, Hqc. rewrite Hqb, Hqc in Hb. cbn in *.
      apply Qle_bool_iff. apply Qle_bool_iff in Hb. lra.
    + assert (Hlt : qb < qa).
      { destruct (Qlt_le_dec qb qa) as [? | Hle]; [done |].
        assert (Qle_bool (qa + - qb) 0 = true) by (apply Qle_bool_iff; lra).
        congruence. }
      constructor; [by apply IH |].
      rewrite insertCategory_perm. constructor; [| done].
      rewrite Ha, Hqb. cbn. apply Qle_bool_iff. lra.
Qed.

Lemma sortCategories_sorted l :
  Forall (fun cat => exists q, order cat = Fin q) l ->
  StronglySorted (fun c d => jle (order c) (order d) = true) (sortCategories l).
Proof.
  induction 1 as [|a l Ha Hl IH]; cbn [sortCategories foldr]; [constructor |].
  apply insertCategory_sorted; [done | by rewrite sortCategories_perm | done].
Qed.


(** X18.  For every change that is a number, also an infinite one,
    [getColor] returns an [rgb(...)] colour whose three channels are
    integers from 0 to 255: a green for a positive change, with red up to
    30, green from 200 and blue from 80 to 100; otherwise (zero counts as
    falling) a magenta whose red and blue are equal and from 220, with
    green up to 40.  A change that is not a number gives no colour. *)
Theorem getColor_valid (change : num) :
  getColor NaN = "rgb(NaN, NaN, NaN)" /\
  (change <> NaN ->
   exists r g b : Z,
     getColor change = rgb r g b /\
     if jgt change (Fin 0)
     then (0 <= r <= 30 /\ 200 <= g <= 255 /\ 80 <= b <= 100)%Z
     else (r = b /\ 220 <= r <= 255 /\ 0 <= g <= 40)%Z).
Proof.
  split; [reflexivity |]. intros Hnan.
  destruct (intensity_range change Hnan) as (i & Hint & Hi & _).
  unfold getColor, channels. rewrite Hint.
  destruct (jgt change (Fin 0)).
  - destruct (jround_affine 0 30 i Hi ltac:(lia)) as (r & Hr & Hr' & _).
    destruct (jround_affine 200 55 i Hi ltac:(lia)) as (g & Hg & Hg' & _).
    destruct (jround_affine 80 20 i Hi ltac:(lia)) as (b & Hb & Hb' & _).
    change (Fin (inject_Z 0)) with (Fin 0) in Hr.
    change (Fin (inject_Z 30)) with (Fin 30) in Hr.
    change (Fin (inject_Z 200)) with (Fin 200) in Hg.
    change (Fin (inject_Z 55)) with (Fin 55) in Hg.
    change (Fin (inject_Z 80)) with (Fin 80) in Hb.
    change (Fin (inject_Z 20)) with (Fin 20) in Hb.
    rewrite Hr, Hg, Hb. exists r, g, b. split; [reflexivity | lia].
  - destruct (jround_affine 220 35 i Hi ltac:(lia)) as (r & Hr & Hr' & _).
    destruct (jround_affine 0 40 i Hi ltac:(lia)) as (g & Hg & Hg' & _).
    change (Fin (inject_Z 220)) with (Fin 220) in Hr.
    change (Fin (inject_Z 35)) with (Fin 35) in Hr.
    change (Fin (inject_Z 0)) with (Fin 0) in Hg.
    change (Fin (inject_Z 40)) with (Fin 40) in Hg.
    rewrite Hr, Hg. exists r, g, r. split; [reflexivity | lia].
Qed.

Lemma getColor_valid_witness :
  exists r g b : Z,
    getColor (Fin 0) = rgb r g b /\
    (r = b /\ 220 <= r <= 255 /\ 0 <= g <= 40)%Z.
Proof.
  apply (proj2 (getColor_valid (Fin 0))). discriminate.
Defined.

(** X19.  The colour saturates: every change of 200 or more, in either
    direction, has the colour of 200, [rgb(30, 255, 100)] when rising and
    [rgb(255, 40, 255)] when falling. *)
Theorem getColor_saturates (change : num) :
  jle (Fin 200) (jabs change) = true ->
  getColor change
  = if jgt change (Fin 0) then "rgb(30, 255, 100)" else "rgb(255, 40, 255)".
Proof.
  intros Hbig.
  assert (Hnan : change <> NaN) by (intros ->; discriminate Hbig).
  destruct (intensity_range change Hnan) as (i & Hint & Hi & Hone).
  specialize (Hone Hbig).
  unfold getColor, channels. rewrite Hint.
  destruct (jgt change (Fin 0)).
  - destruct (jround_affine 0 30 i Hi ltac:(lia)) as (r & Hr & _ & Hr').
    destruct (jround_affine 200 55 i Hi ltac:(lia)) as (g & Hg & _ & Hg').
    destruct (jround_affine 80 20 i Hi ltac:(lia)) as (b & Hb & _ & Hb').
    change (Fin (inject_Z 0)) with (Fin 0) in Hr.
    change (Fin (inject_Z 30)) with (Fin 30) in Hr.
    change (Fin (inject_Z 200)) with (Fin 200) in Hg.
    change (Fin (inject_Z 55)) with (Fin 55) in Hg.
    change (Fin (inject_Z 80)) with (Fin 80) in Hb.
    change (Fin (inject_Z 20)) with (Fin 20) in Hb.
    rewrite Hr, Hg, Hb, (Hr' Hone), (Hg' Hone), (Hb' Hone). reflexivity.
  - destruct (jround_affine 220 35 i Hi ltac:(lia)) as (r & Hr & _ & Hr').
    destruct (jround_affine 0 40 i Hi ltac:(lia)) as (g & Hg & _ & Hg').
    change (Fin (inject_Z 220)) with (Fin 220) in Hr.
    change (Fin (inject_Z 35)) with (Fin 35) in Hr.
    change (Fin (inject_Z 0)) with (Fin 0) in Hg.
    change (Fin (inject_Z 40)) with (Fin 40) in Hg.
    rewrite Hr, Hg, (Hr' Hone), (Hg' Hone). reflexivity.
Qed.

Lemma getColor_saturates_witness :
  getColor (Fin (-350)) = "rgb(255, 40, 255)".
Proof.
  apply (getColor_saturates (Fin (-350))). reflexivity.
Defined.

(** X20.  [Heatmap] fails with a [TypeError], instead of giving sections,
    exactly when a trend has a category whose name is inherited from
    [Object.prototype] (the inherited value has no [push]), or a category
    that is not disabled has as its [id] such a name whose value has a
    positive [length], as [constructor] has (the value has no [reduce]). *)
Theorem sections_throws inherited trends categories format :
  sections inherited trends categories format = None <->
  Exists (fun t => keyOf (categoryOf t) ∈ dom inherited) trends \/
  Exists (shadowed inherited) categories.
Proof.
  split.
  - intros Hnone.
    destruct (decide (Exists (fun t => keyOf (categoryOf t) ∈ dom inherited)
                        trends)) as [Hbad | Hgood]; [by left |].
    destruct (decide (Exists (shadowed inherited) categories))
      as [Hsh | Hok]; [by right |].
    apply Forall_Exists_neg in Hgood. apply Forall_Exists_neg in Hok.
    destruct (sections_shape inherited trends categories format Hgood Hok)
      as (g & bottom & secs & _ & Hsec & _).
    congruence.
  - intros [Hbad | Hsh]; [by apply sections_None_trend |].
    destruct (decide (Exists (fun t => keyOf (categoryOf t) ∈ dom inherited)
                        trends)) as [Hbad | Hgood];
      [by apply sections_None_trend |].
    apply Forall_Exists_neg in Hgood. by apply sections_None_category.
Qed.

(** X22.  When [Heatmap] gives sections, each section is for a category
    that is not disabled and holds the trends of that category, at least
    one, in the order of [trends]; every trend whose category is enabled
    is in a section; and with distinct category ids no trend is in two
    sections. *)
Theorem sections_partition inherited trends categories format :
  Forall (groupable inherited) trends ->
  Forall (fun cat => ~ shadowed inherited cat) categories ->
  exists secs,
    sections inherited trends categories format = Some secs /\
    Forall (fun s =>
              category s ∈ categories /\
              notDisabled (category s) = true /\
              items s = trendsOf (id (category s)) trends /\
              items s <> []) secs /\
    (forall t,
        t ∈ trends -> isEnabled categories t = true ->
        exists s, s ∈ secs /\ t ∈ items s) /\
    (NoDup (map id categories) ->
     forall (i j : nat) s s' t,
       i <> j -> secs !! i = Some s -> secs !! j = Some s' ->
       t ∈ items s -> t ∉ items s').
Proof.
  intros Htrends Hcats.
  destruct (sections_shape inherited trends categories format Htrends Hcats)
    as (g & bottom & secs & Hspec & Hsec & Hmap & Hsecs & _).
  exists secs. split; [done |]. split; [| split].
  - apply Forall_forall. intros s Hs.
    rewrite Forall_forall in Hsecs.
    destruct (Hsecs s Hs) as (Hitems & Hnon & Hen & _).
    assert (Hcat : category s
                   ∈ sortCategories (List.filter (shown inherited g) categories)).
    { rewrite <- Hmap. by apply (list_elem_of_fmap_2 category). }
    apply sorted_elem in Hcat as [Hin _]. done.
  - intros t Ht Hen. unfold isEnabled in Hen.
    destruct (findCategory categories (categoryOf t)) as [cat|] eqn:Efind;
      [| discriminate Hen].
    apply List.find_some in Efind as [Hin Hid].
    apply bool_decide_eq_true in Hid.
    assert (Htof : t ∈ trendsOf (id cat) trends).
    { apply trendsOf_elem. split; [done |]. by rewrite <- Hid. }
    assert (Hcat : cat ∈ map category secs).
    { rewrite Hmap. apply sorted_elem. split; [by apply list_elem_of_In |].
      unfold shown. rewrite Hen, Hspec.
      by destruct (trendsOf (id cat) trends); [inversion Htof |]. }
    apply (list_elem_of_fmap_1 category) in Hcat as (s & -> & Hs).
    exists s. split; [done |].
    rewrite Forall_forall in Hsecs. destruct (Hsecs s Hs) as (-> & _). done.
  - intros Hnd i j s s' t Hij Hi Hj Ht Ht'.
    assert (Hnd' : NoDup (map id (map category secs))).
    { rewrite Hmap.
      rewrite (fmap_Permutation id _ _ (sortCategories_perm _)).
      by apply NoDup_id_filter. }
    rewrite Forall_forall in Hsecs.
    destruct (Hsecs s (list_elem_of_lookup_2 _ _ _ Hi)) as (Hs & _).
    destruct (Hsecs s' (list_elem_of_lookup_2 _ _ _ Hj)) as (Hs' & _).
    rewrite Hs in Ht. rewrite Hs' in Ht'.
    apply trendsOf_elem in Ht as [_ Hk]. apply trendsOf_elem in Ht' as [_ Hk'].
    apply Hij. apply (NoDup_lookup _ i j (id (category s)) Hnd').
    + by rewrite !list_lookup_fmap, Hi.
    + rewrite !list_lookup_fmap, Hj. cbn. congruence.
Qed.

Lemma sections_partition_witness :
  exists secs,
    sections (<["constructor" := true]> {["toString" := false]})
      [mkTrend "a" "music" 60; mkTrend "b" "film" 30; mkTrend "c" "music" 10]
      [Category "film" None (Fin 2); Category "music" (Some true) (Fin 1)]
      "story" = Some secs /\
    Forall (fun s =>
              category s
              ∈ [Category "film" None (Fin 2);
                 Category "music" (Some true) (Fin 1)] /\
              notDisabled (category s) = true /\
              items s
              = trendsOf (id (category s))
                  [mkTrend "a" "music" 60; mkTrend "b" "film" 30;
                   mkTrend "c" "music" 10] /\
              items s <> []) secs.
Proof.
  destruct (sections_partition
              (<["constructor" := true]> {["toString" := false]})
              [mkTrend "a" "music" 60; mkTrend "b" "film" 30;
               mkTrend "c" "music" 10]
              [Category "film" None (Fin 2);
               Category "music" (Some true) (Fin 1)]
              "story") as (secs & Hsec & Hall & _).
  - repeat constructor; apply not_elem_of_dom; vm_compute; reflexivity.
  - repeat constructor; intros [_ H]; vm_compute in H; discriminate H.
  - exists secs. by split.
Defined.

(** X23.  The sections come in ascending [order] of their categories, when
    every category has a finite [order]. *)
Theorem sections_in_order inherited trends categories format :
  Forall (groupable inherited) trends ->
  Forall (fun cat => ~ shadowed inherited cat) categories ->
  Forall (fun cat => exists q, order cat = Fin q) categories ->
  exists secs,
    sections inherited trends categories format = Some secs /\
    forall (i j : nat) s s',
      (i < j)%nat -> secs !! i = Some s -> secs !! j = Some s' ->
      jle (order (category s)) (order (category s')) = true.
Proof.
  intros Htrends Hcats Hfin.
  destruct (sections_shape inherited trends categories format Htrends Hcats)
    as (g & bottom & secs & _ & Hsec & Hmap & _).
  exists secs. split; [done |]. intros i j s s' Hij Hi Hj.
  assert (Hsorted : StronglySorted
                      (fun c d => jle (order c) (order d) = true)
                      (map category secs)).
  { rewrite Hmap. apply sortCategories_sorted.
    rewrite Forall_forall in Hfin. apply Forall_forall. intros cat Hcat.
    apply list_elem_of_In, List.filter_In in Hcat as [Hcat _].
    by apply Hfin, list_elem_of_In. }
  apply (StronglySorted_lookup_lt _ _ i j _ _ Hsorted Hij).
  - by rewrite list_lookup_fmap, Hi.
  - by rewrite list_lookup_fmap, Hj.
Qed.

Lemma sections_in_order_witness :
  exists secs,
    sections (<["constructor" := true]> {["toString" := false]})
      [mkTrend "a" "music" 60; mkTrend "b" "film" 30; mkTrend "c" "music" 10]
      [Category "film" None (Fin 2); Category "music" (Some true) (Fin 1)]
      "feed" = Some secs /\
    forall (i j : nat) s s',
      (i < j)%nat -> secs !! i = Some s -> secs !! j = Some s' ->
      jle (order (category s)) (order (category s')) = true.
Proof.
  apply sections_in_order.
  - repeat constructor; apply not_elem_of_dom; vm_compute; reflexivity.
  - repeat constructor; intros [_ H]; vm_compute in H; discriminate H.
  - repeat constructor; eexists; reflexivity.
Defined.

(** X25.  The blocks of a section.  For every section, whatever its
    height, the call of [calculateLayout] returns; it returns no block
    when the sizes of the trends of the section add up to zero, and
    otherwise one block for each trend of the category of the section:
    the blocks are, in order, the image of a permutation of these trends,
    each block carrying the properties of its trend that the layout does
    not write. *)
Theorem sectionLayout_blocks inherited trends categories format :
  Forall (groupable inherited) trends ->
  Forall (fun cat => ~ shadowed inherited cat) categories ->
  exists secs,
    sections inherited trends categories format = Some secs /\
    Forall (fun s =>
              exists out,
                sectionLayout inherited format s = Some out /\
                (jeq (totalSize (items s)) (Fin 0) = true -> out = []) /\
                (jeq (totalSize (items s)) (Fin 0) = false ->
                 exists trends',
                   trends' ≡ₚ trendsOf (id (category s)) trends /\
                   Forall2 carries trends' out)) secs.
Proof.
  intros Htrends Hcats.
  destruct (sections_shape inherited trends categories format Htrends Hcats)
    as (g & bottom & secs & _ & Hsec & _ & Hsecs & _).
  exists secs. split; [done |].
  eapply Forall_impl; [exact Hsecs |].
  intros s (Hitems & _). unfold sectionLayout.
  destruct (jeq (totalSize (items s)) (Fin 0)) eqn:Hzero.
  - exists []. split; [| by split].
    by rewrite calculateLayout_cells, Hzero, orb_true_r.
  - destruct (calculateLayout_carries (items s)
                ((dimensions inherited format).1 - Fin 60)%num
                (height s - Fin 50)%num (Fin 6) Hzero)
      as (out & trends' & Hout & Hperm & Hall).
    exists out. split; [done |]. split; [done |].
    intros _. exists trends'. by rewrite <- Hitems.
Qed.

Lemma sectionLayout_blocks_witness :
  exists secs,
    sections (<["constructor" := true]> {["toString" := false]})
      [mkTrend "a" "music" 60; mkTrend "b" "film" 30; mkTrend "c" "music" 10]
      [Category "film" None (Fin 2); Category "music" (Some true) (Fin 1)]
      "feed" = Some secs /\
    Forall (fun s =>
              exists out,
                sectionLayout
                  (<["constructor" := true]> {["toString" := false]})
                  "feed" s = Some out /\
                (jeq (totalSize (items s)) (Fin 0) = true -> out = []) /\
                (jeq (totalSize (items s)) (Fin 0) = false ->
                 exists trends',
                   trends' ≡ₚ trendsOf (id (category s))
                                [mkTrend "a" "music" 60; mkTrend "b" "film" 30;
                                 mkTrend "c" "music" 10] /\
                   Forall2 carries trends' out)) secs.
Proof.
  apply sectionLayout_blocks.
  - repeat constructor; apply not_elem_of_dom; vm_compute; reflexivity.
  - repeat constructor; intros [_ H]; vm_compute in H; discriminate H.
Defined.
